(** * PZEM to OPC UA bridge: a shallow embedding of [pzem_to_opcua_min.py]

    The development follows the layout of the script:
    - the sensor ([PzemReading], [PzemNative._decode_response], [PzemNative.read]);
    - the writer ([UmatiPrWriter.resolve_nodes], [UmatiPrWriter.write_values]);
    - the orchestration ([main] and the [__main__] block).

    Python floats are IEEE 754 binary64 numbers and are modelled by Rocq's
    primitive floats, so every arithmetic operation below rounds exactly
    as the script does.  Calls that may raise return a [result]; effects
    on the outside world (connection, serial port, clock, log) are taken
    from an explicit environment and recorded in a trace of [event]s. *)

From Stdlib Require Import ZArith Floats Lia.
From Stdlib Require Import Strings.Byte.
From Stdlib Require Uint63.
From stdpp Require Import gmap strings list.

Set Warnings "-inexact-float,-clear-no-such-hyp".

(** ** Exceptions *)

(** An instance of (a subclass of) Python's [Exception], identified by the
    text [str(e)] that the script logs. *)
Record exn := Exception { exn_msg : string }.

Inductive result (A : Type) : Type :=
  | Ok (a : A)
  | Raise (e : exn).
Arguments Ok {A} a.
Arguments Raise {A} e.

#[global] Instance result_ret : MRet result := @Ok.
#[global] Instance result_bind : MBind result := λ A B f m,
  match m with
  | Ok a => f a
  | Raise e => Raise e
  end.

Definition is_Ok {A} (r : result A) : bool :=
  match r with Ok _ => true | Raise _ => false end.

(** ** Numbers *)

(** [float(n)] for a Python integer [n]: the nearest binary64 number. *)
Definition float_of_int (n : Z) : float :=
  SF2Prim (binary_normalize prec emax n 0 false).

(** [int(x)] for a Python float [x]: truncation towards zero; infinities
    raise [OverflowError] and NaN raises [ValueError]. *)
Definition int_of_float (x : float) : result Z :=
  match Prim2SF x with
  | S754_zero _ => Ok 0%Z
  | S754_finite s m e =>
      let a := Z.shiftl (Z.pos m) e in
      Ok (if s then (- a)%Z else a)
  | S754_infinity _ => Raise (Exception "cannot convert float infinity to integer")
  | S754_nan => Raise (Exception "cannot convert float NaN to integer")
  end.

(** ** Bytes and [struct.unpack] *)

Definition byte_val (b : byte) : Z := Z.of_N (Byte.to_N b).

(** Big-endian unsigned value of a byte string. *)
Definition be_int (bs : list byte) : Z :=
  fold_left (λ acc b, (acc * 256 + byte_val b)%Z) bs 0%Z.

(** The Python slice [l[i:j]] for [0 <= i <= j]. *)
Definition slice {A} (i j : nat) (l : list A) : list A := take (j - i) (drop i l).

(** [struct.unpack(fmt, bs)[0]] for an unsigned big-endian format of [size]
    bytes: raises [struct.error] unless [bs] has exactly that size. *)
Definition struct_unpack (size : nat) (bs : list byte) : result Z :=
  if decide (length bs = size) then Ok (be_int bs)
  else Raise (Exception "unpack requires a buffer of the format's size").

(** [">H"] and [">I"]. *)
Definition struct_unpack_H : list byte → result Z := struct_unpack 2.
Definition struct_unpack_I : list byte → result Z := struct_unpack 4.

(** ** Sensor: [PzemReading] and [PzemNative] *)

Record PzemReading := {
  voltage : float;
  current : float;
  power : float;
  energy : float;
  status : string;
}.

(** [PzemReading(status=s)]: the dataclass defaults every measurement to 0.0. *)
Definition PzemReading_status (s : string) : PzemReading :=
  {| voltage := 0; current := 0; power := 0; energy := 0; status := s |}.

Section Decode.
(** The two [struct.unpack] formats used by the decoder. *)
Variables unpack_H unpack_I : list byte → result Z.

(** The body of the [try] block of [_decode_response]. *)
Definition extract_fields (buf : list byte) : result PzemReading :=
  v ← unpack_H (slice 3 5 buf);
  let voltage := (float_of_int v / 10.0)%float in
  c ← unpack_I (x00 :: slice 5 8 buf);
  let current := (float_of_int c / 1000.0)%float in
  p ← unpack_I (x00 :: slice 9 12 buf);
  let power := (float_of_int p / 10.0)%float in
  e ← unpack_I (x00 :: slice 13 16 buf);
  let energy := float_of_int e in
  Ok {| voltage := voltage; current := current; power := power;
        energy := energy; status := "OK" |}.

(** [_decode_response], for any behaviour of [struct.unpack]: a short
    buffer gives [None], and so does any exception of the [try] block. *)
Definition decode_with (buf : list byte) : option PzemReading :=
  if decide (length buf < 25) then None
  else match extract_fields buf with
       | Ok reading => Some reading
       | Raise _ => None
       end.
End Decode.

(** [PzemNative._decode_response]. *)
Definition _decode_response : list byte → option PzemReading :=
  decode_with struct_unpack_H struct_unpack_I.

Record PzemNative := {
  device : string;
  baudrate : Z;
  timeout : float;
  read_delay : float;
  simulate : bool;
  _last_energy : float;
}.

(** [PzemNative.__init__]. *)
Definition PzemNative_init (device : string) (baudrate : Z) (timeout read_delay : float)
    (simulate : bool) : PzemNative :=
  {| device := device; baudrate := baudrate; timeout := timeout;
     read_delay := read_delay; simulate := simulate; _last_energy := 0 |}.

Definition set_last_energy (self : PzemNative) (e : float) : PzemNative :=
  {| device := device self; baudrate := baudrate self; timeout := timeout self;
     read_delay := read_delay self; simulate := simulate self; _last_energy := e |}.

(** What the outside world does during one round trip of [read].  Opening
    the port may raise, and then there is nothing to close.  Once the port
    is open, writing the request, the system call of [time.sleep] or
    reading the answer may raise; otherwise the device delivers [avail]
    bytes before the timeout.  In each of these cases leaving the [with]
    block closes the port ([Serial.__exit__]), which may raise as well. *)
Inductive serial_io :=
  | OpenRaises (e : exn)
  | WriteRaises (e : exn) (close : result unit)
  | SleepRaises (e : exn) (close : result unit)
  | ReadRaises (e : exn) (close : result unit)
  | Responds (avail : list byte) (close : result unit).

(** The fixed request frame. *)
Definition req : list byte :=
  [x01; x04; x00; x00; x00; x0a; x70; x0d].

(** How [time.sleep(d)] checks its argument (CPython 3.11): NaN is
    refused; the delay is converted to [d * 1e9] nanoseconds, rounded to
    a whole number away from zero, which has to lie between [-2^63] and
    [2^63]; a negative number of nanoseconds is refused, and so is [2^63]
    itself, which the conversion to a signed 64-bit integer wraps to a
    negative number.  The rounding changes none of these comparisons
    (above [2^52] every binary64 number is whole), so they are made on
    [d * 1e9].  A delay that passes the checks is handed to the system,
    where the sleep can still fail (the deadline, the monotonic clock
    plus the delay, may be more than the clock can hold): that is
    [SleepRaises]. *)
Definition time_sleep (d : float) : result unit :=
  if is_nan d then Raise (Exception "Invalid value NaN (not a number)")
  else
    let ns := (d * 1e9)%float in
    if (ns <? - 0x1p63)%float || (0x1p63 <? ns)%float
    then Raise (Exception "timestamp too large to convert to C _PyTime_t")
    else if (ns <? 0)%float || (ns =? 0x1p63)%float
    then Raise (Exception "sleep length must be non-negative")
    else Ok tt.

(** The body of the [with serial.Serial(...) as ser] block up to
    [resp = ser.read(25)]. *)
Definition serial_round_trip (self : PzemNative) (io : serial_io) : result (list byte) :=
  match io with
  | OpenRaises e => Raise e
  | WriteRaises e _ => Raise e
  | SleepRaises e _ => _ ← time_sleep (read_delay self); Raise e
  | ReadRaises e _ => _ ← time_sleep (read_delay self); Raise e
  | Responds avail _ => _ ← time_sleep (read_delay self); Ok (take 25 avail)
  end.

(** Leaving the [with] block, whether its body returned or raised. *)
Definition serial_close (io : serial_io) : result unit :=
  match io with
  | OpenRaises _ => Ok tt
  | WriteRaises _ close | SleepRaises _ close | ReadRaises _ close => close
  | Responds _ close => close
  end.

(** The synthetic voltage and current of simulate mode at clock value [now]. *)
Definition sim_voltage (now : float) : result float :=
  t ← int_of_float now;
  Ok (229.0 + 0.5 * float_of_int (if decide (t `mod` 2 = 0)%Z then 1 else -1))%float.

Definition sim_current (now : float) : result float :=
  t ← int_of_float (now / float_of_int 3)%float;
  Ok (0.150 + 0.010 * float_of_int (if decide (t `mod` 2 = 0)%Z then 1 else -1))%float.

(** [PzemNative.read]: [now] is the value of [time.time()], [io] the
    behaviour of the serial port.  The result comes with the updated
    sensor object.  Exceptions of simulate mode are outside the [try];
    on the hardware path every exception, that of closing the port
    included, is caught by [except Exception].  When the body of the
    [with] block raises and closing the port raises too, the exception
    of the close is the one that reaches the handler. *)
Definition read (self : PzemNative) (now : float) (io : serial_io)
    : result PzemReading * PzemNative :=
  if simulate self then
    match sim_voltage now with
    | Raise e => (Raise e, self)
    | Ok voltage =>
        match sim_current now with
        | Raise e => (Raise e, self)
        | Ok current =>
            let power := (voltage * current)%float in
            let self' := set_last_energy self
                           (_last_energy self + power * (5.0 / 3600.0))%float in
            (Ok {| voltage := voltage; current := current; power := power;
                   energy := _last_energy self'; status := "SIM" |}, self')
        end
    end
  else
    let serial_error e := PzemReading_status ("Serial error: " +:+ exn_msg e) in
    match serial_round_trip self io with
    | Ok resp =>
        let '(reading, self') :=
          match _decode_response resp with
          | Some reading => (reading, set_last_energy self (energy reading))
          | None => (PzemReading_status "No response/Decode fail", self)
          end in
        match serial_close io with
        | Ok _ => (Ok reading, self')
        | Raise e => (Ok (serial_error e), self')
        end
    | Raise e =>
        match serial_close io with
        | Ok _ => (Ok (serial_error e), self)
        | Raise e' => (Ok (serial_error e'), self)
        end
    end.

(** Consecutive calls of [read] on one sensor object. *)
Fixpoint read_many (self : PzemNative) (inputs : list (float * serial_io))
    : list (result PzemReading) * PzemNative :=
  match inputs with
  | [] => ([], self)
  | (now, io) :: rest =>
      let '(r, self') := read self now io in
      let '(rs, self'') := read_many self' rest in
      (r :: rs, self'')
  end.

(** ** The OPC UA side: sessions, log records and observable events *)

(** A node handle, identified by the textual form of its NodeId. *)
Abbreviation Node := string (only parsing).

(** What a connected session answers.  Every call is a network round trip
    and may raise. *)
Record Session := {
  get_children : Node → result (list Node);
  read_browse_name : Node → result string;
  read_attributes : Node → result (Z * Z);
  write_value : Node → float → result unit;
}.

Inductive level := DEBUG | INFO | WARNING | ERROR.

(** The log records of the script, by format string. *)
Inductive log_msg :=
  | Starting
  | ConnectingTo (endpoint : string)
  | Connected
  | Disconnected
  | BrowseFailed (segment : string)
  | VariableNotFound (name : string)
  | AccessLevels (name : string) (al ual : Z)
  | NodeNotResolved (name : string)
  | UaWriteException (e : exn)
  | ConnectResolveFailed (attempt retries : Z) (e : exn)
  | PzemStatus (s : string)
  | WriteNotOk
  | Values (v i p e : float).

Inductive event :=
  | EConnect
  | EDisconnect
  | ESleep (d : float)
  | ERead (r : result PzemReading)
  | EWrite (node : Node) (v : float)
  | ELog (lvl : level) (msg : log_msg).

Definition is_connect (ev : event) : bool :=
  match ev with EConnect => true | _ => false end.
Definition is_sleep (ev : event) : bool :=
  match ev with ESleep _ => true | _ => false end.
Definition is_read (ev : event) : bool :=
  match ev with ERead _ => true | _ => false end.
Definition is_write (ev : event) : bool :=
  match ev with EWrite _ _ => true | _ => false end.
Definition is_attempt_warning (ev : event) : bool :=
  match ev with ELog WARNING (ConnectResolveFailed _ _ _) => true | _ => false end.

Definition count (p : event → bool) (tr : list event) : nat :=
  length (List.filter p tr).

(** ** [UmatiPrWriter] *)

Record UmatiPrWriter := {
  client : Session;
  machine_root_id : Node;
  channel_path : list string;
  variable_names : list string;
  verbose : bool;
  nodes : gmap string Node;
}.

(** [UmatiPrWriter.__init__]. *)
Definition UmatiPrWriter_init (client : Session) (machine_root_id : Node)
    (channel_path variable_names : list string) (verbose : bool) : UmatiPrWriter :=
  {| client := client; machine_root_id := machine_root_id;
     channel_path := channel_path; variable_names := variable_names;
     verbose := verbose; nodes := ∅ |}.

Definition set_nodes (self : UmatiPrWriter) (m : gmap string Node) : UmatiPrWriter :=
  {| client := client self; machine_root_id := machine_root_id self;
     channel_path := channel_path self; variable_names := variable_names self;
     verbose := verbose self; nodes := m |}.

(** The [for n in refs] loop of [_find_child_by_browse_name]. *)
Fixpoint find_in_refs (s : Session) (refs : list Node) (browse_name : string)
    : result (option Node) :=
  match refs with
  | [] => Ok None
  | n :: rest =>
      qn ← read_browse_name s n;
      if decide (qn = browse_name) then Ok (Some n)
      else find_in_refs s rest browse_name
  end.

Definition _find_child_by_browse_name (s : Session) (parent : Node) (browse_name : string)
    : result (option Node) :=
  refs ← get_children s parent;
  find_in_refs s refs browse_name.

(** The first loop of [resolve_nodes]: [Ok None] stands for the early
    [return False]. *)
Fixpoint walk_channel_path (s : Session) (cur : Node) (path : list string)
    : result (option Node) * list event :=
  match path with
  | [] => (Ok (Some cur), [])
  | segment :: rest =>
      match _find_child_by_browse_name s cur segment with
      | Raise e => (Raise e, [])
      | Ok None => (Ok None, [ELog ERROR (BrowseFailed segment)])
      | Ok (Some nxt) => walk_channel_path s nxt rest
      end
  end.

(** The second loop: [self.nodes[name] = node] is executed name by name. *)
Fixpoint pick_variables (s : Session) (cur : Node) (names : list string)
    (m : gmap string Node) : result bool * gmap string Node * list event :=
  match names with
  | [] => (Ok true, m, [])
  | name :: rest =>
      match _find_child_by_browse_name s cur name with
      | Raise e => (Raise e, m, [])
      | Ok None => (Ok false, m, [ELog ERROR (VariableNotFound name)])
      | Ok (Some node) => pick_variables s cur rest (<[name := node]> m)
      end
  end.

(** The first occurrences of the names of a list, in list order. *)
Fixpoint keep_first (names : list string) : list string :=
  match names with
  | [] => []
  | name :: rest => name :: filter (λ x, x ≠ name) (keep_first rest)
  end.

(** [self.nodes.items()]: a dict yields its entries in the order in which
    the keys were first inserted.  [resolve_nodes] is the only code that
    inserts, and it inserts the names of [variable_names] in list order, so
    that the keys of a writer made by [__init__] follow the first
    occurrences of the names in this list.  Keys of any other origin,
    which such a writer does not have, are put in front. *)
Definition nodes_items (names : list string) (m : gmap string Node)
    : list (string * Node) :=
  map_to_list (filter (λ kv, kv.1 ∉ names) m) ++
  omap (λ name, pair name <$> m !! name) (keep_first names).

(** The [if self.verbose] loop over [self.nodes.items()]. *)
Fixpoint inspect_access_levels (s : Session) (items : list (string * Node))
    : result unit * list event :=
  match items with
  | [] => (Ok tt, [])
  | (name, node) :: rest =>
      match read_attributes s node with
      | Raise e => (Raise e, [])
      | Ok (al, ual) =>
          let '(r, tr) := inspect_access_levels s rest in
          (r, ELog DEBUG (AccessLevels name al ual) :: tr)
      end
  end.

(** [UmatiPrWriter.resolve_nodes]: the returned writer carries the
    [self.nodes] left behind by the call. *)
Definition resolve_nodes (self : UmatiPrWriter)
    : result bool * UmatiPrWriter * list event :=
  let s := client self in
  match walk_channel_path s (machine_root_id self) (channel_path self) with
  | (Raise e, tr) => (Raise e, self, tr)
  | (Ok None, tr) => (Ok false, self, tr)
  | (Ok (Some cur), tr) =>
      match pick_variables s cur (variable_names self) (nodes self) with
      | (Raise e, m, tr') => (Raise e, set_nodes self m, tr ++ tr')
      | (Ok false, m, tr') => (Ok false, set_nodes self m, tr ++ tr')
      | (Ok true, m, tr') =>
          let self' := set_nodes self m in
          if verbose self then
            match inspect_access_levels s (nodes_items (variable_names self) m) with
            | (Raise e, tr'') => (Raise e, self', tr ++ tr' ++ tr'')
            | (Ok _, tr'') => (Ok true, self', tr ++ tr' ++ tr'')
            end
          else (Ok true, self', tr ++ tr')
      end
  end.

(** The value written for [name]: [float(values.get(name, 0.0))]. *)
Definition value_for (values : gmap string float) (name : string) : float :=
  default 0%float (values !! name).

(** The [for name in self.variable_names] loop of [write_values]; [ok] is
    the flag of the same name. *)
Fixpoint write_loop (s : Session) (resolved : gmap string Node) (names : list string)
    (values : gmap string float) (ok : bool) : result bool * list event :=
  match names with
  | [] => (Ok ok, [])
  | name :: rest =>
      match resolved !! name with
      | None =>
          let '(r, tr) := write_loop s resolved rest values false in
          (r, ELog ERROR (NodeNotResolved name) :: tr)
      | Some node =>
          let v := value_for values name in
          match write_value s node v with
          | Raise e => (Raise e, [EWrite node v])
          | Ok _ =>
              let '(r, tr) := write_loop s resolved rest values ok in
              (r, EWrite node v :: tr)
          end
      end
  end.

(** [UmatiPrWriter.write_values]: the [try] around the whole loop turns
    an exception into [False]. *)
Definition write_values (self : UmatiPrWriter) (values : gmap string float)
    : bool * list event :=
  match write_loop (client self) (nodes self) (variable_names self) values true with
  | (Ok ok, tr) => (ok, tr)
  | (Raise e, tr) => (false, tr ++ [ELog ERROR (UaWriteException e)])
  end.

(** ** Orchestration: [main] *)

(** The values [main] reads from the configuration, defaults applied. *)
Record Config := {
  cfg_verbose : bool;
  cfg_log_values : bool;
  cfg_values_every_n : Z;
  cfg_device : string;
  cfg_baudrate : Z;
  cfg_timeout : float;
  cfg_read_delay : float;
  cfg_simulate : bool;
  v_scale : float;
  i_scale : float;
  p_scale : float;
  e_scale : float;
  cfg_endpoint : string;
  cfg_machine_root : string;
  cfg_channel_path : list string;
  cfg_var_names : list string;
  retries : Z;
  retry_delay : float;
  sample : float;
}.

(** Everything outside the script that [main] interacts with.  A [World]
    describes a run in which the configuration values have the types that
    [main] converts them to ([Config]) and in which the task is cancelled,
    if at all, while it sleeps in the sampling loop ([cycles]); a
    cancellation during the connection attempts is not among the runs
    described. *)
Record World := {
  (** the parsed [config.json], or [None] when the file does not exist *)
  config_file : option Config;
  (** [ua.NodeId.from_string] *)
  NodeId_from_string : string → result Node;
  (** [client.connect()] at the given attempt: it raises, or reaches a server *)
  connect : Z → result Session;
  (** [time.time()] and the serial port at each sampling cycle *)
  sensor_io : nat → float * serial_io;
  (** number of sampling cycles started before the task is cancelled in
      its [asyncio.sleep] *)
  cycles : nat;
  (** the [client.disconnect()] of the [finally] block *)
  final_disconnect : result unit;
}.

(** [range(a, b)]. *)
Definition range (a b : Z) : list Z := seqZ a (b - a).

(** The body of the [try] block of one connection attempt. *)
Definition attempt (cfg : Config) (w : World) (k : Z)
    : result UmatiPrWriter * list event :=
  match connect w k with
  | Raise e => (Raise e, [EConnect])
  | Ok session =>
      let pre := [EConnect; ELog INFO Connected] in
      match NodeId_from_string w (cfg_machine_root cfg) with
      | Raise e => (Raise e, pre)
      | Ok root =>
          let writer := UmatiPrWriter_init session root (cfg_channel_path cfg)
                          (cfg_var_names cfg) (cfg_verbose cfg) in
          match resolve_nodes writer with
          | (Raise e, _, tr) => (Raise e, pre ++ tr)
          | (Ok false, _, tr) => (Raise (Exception "Node resolution failed."), pre ++ tr)
          | (Ok true, writer', tr) => (Ok writer', pre ++ tr)
          end
      end
  end.

(** How the retry loop ends: by the [return] after the last attempt, or
    by falling through to the sampling loop with the current [writer]. *)
Inductive connect_outcome :=
  | GaveUp
  | Proceed (writer : option UmatiPrWriter).

(** The [for attempt in range(1, retries + 1)] loop. *)
Fixpoint connect_loop (cfg : Config) (w : World) (attempts : list Z)
    : connect_outcome * list event :=
  match attempts with
  | [] => (Proceed None, [])
  | k :: rest =>
      match attempt cfg w k with
      | (Ok writer, tr) => (Proceed (Some writer), tr)
      | (Raise e, tr) =>
          let failed :=
            tr ++ [ELog WARNING (ConnectResolveFailed k (retries cfg) e); EDisconnect] in
          if decide (k < retries cfg)%Z then
            let '(o, tr') := connect_loop cfg w rest in
            (o, failed ++ ESleep (retry_delay cfg) :: tr')
          else (GaveUp, failed)
      end
  end.

(** The payload dictionary of one cycle. *)
Definition payload (cfg : Config) (r : PzemReading) : gmap string float :=
  <["AcVoltagePe" := (voltage r * v_scale cfg)%float]>
  (<["AcCurrentPe" := (current r * i_scale cfg)%float]>
  (<["AcActivePowerPe" := (power r * p_scale cfg)%float]>
  (<["AcActiveEnergyTotalImportHp" := (energy r * e_scale cfg)%float]> ∅))).

(** One pass through the body of [while True], up to the sleep. *)
Definition cycle_events (cfg : Config) (writer : option UmatiPrWriter)
    (r : PzemReading) (tick : Z) : list event :=
  (if decide (status r = "OK" ∨ status r = "SIM") then []
   else [ELog WARNING (PzemStatus (status r))])
  ++ match writer with
     | None => []
     | Some wr =>
         let '(ok, tr) := write_values wr (payload cfg r) in
         tr ++ (if ok then [] else [ELog WARNING WriteNotOk])
     end
  ++ (if cfg_log_values cfg && (tick `mod` Z.max 1 (cfg_values_every_n cfg) =? 0)%Z
      then [ELog DEBUG (Values (voltage r * v_scale cfg) (current r * i_scale cfg)
                               (power r * p_scale cfg) (energy r * e_scale cfg))]
      else [])
  ++ [ESleep (sample cfg)].

(** [n] iterations of the sampling loop starting at cycle [i]; an
    exception of [pzem.read()] leaves the loop. *)
Fixpoint sampling (cfg : Config) (w : World) (writer : option UmatiPrWriter)
    (pzem : PzemNative) (tick : Z) (i n : nat) : option exn * list event :=
  match n with
  | 0 => (None, [])
  | S n' =>
      let '(now, io) := sensor_io w i in
      let '(r, pzem') := read pzem now io in
      match r with
      | Raise e => (Some e, [ERead r])
      | Ok rd =>
          let tick' := (tick + 1)%Z in
          let '(res, tr) := sampling cfg w writer pzem' tick' (S i) n' in
          (res, ERead r :: cycle_events cfg writer rd tick' ++ tr)
      end
  end.

Inductive main_outcome :=
  | MainReturns
  | MainRaises (e : exn).

(** [main()]: its outcome and everything it did. *)
Definition main (w : World) : main_outcome * list event :=
  match config_file w with
  | None => (MainRaises (Exception "Config file not found: config.json"), [])
  | Some cfg =>
      let pzem := PzemNative_init (cfg_device cfg) (cfg_baudrate cfg) (cfg_timeout cfg)
                    (cfg_read_delay cfg) (cfg_simulate cfg) in
      let start := [ELog INFO Starting; ELog INFO (ConnectingTo (cfg_endpoint cfg))] in
      match connect_loop cfg w (range 1 (retries cfg + 1)) with
      | (GaveUp, tr) => (MainReturns, start ++ tr)
      | (Proceed writer, tr) =>
          let '(res, tr') := sampling cfg w writer pzem 0 0 (cycles w) in
          let fin := EDisconnect ::
                     (if is_Ok (final_disconnect w) then [ELog INFO Disconnected] else []) in
          (match res with None => MainReturns | Some e => MainRaises e end,
           start ++ tr ++ tr' ++ fin)
      end
  end.

(** The [__main__] block: [asyncio.run(main())] with no [sys.exit]; the
    interpreter exits with 0 when [main] returns and with 1 on an
    uncaught exception. *)
Definition exit_status (w : World) : Z :=
  match fst (main w) with
  | MainReturns => 0
  | MainRaises _ => 1
  end.

(** ** Claims, in the vocabulary of the specification *)

(** The unsigned value of the byte at offset [i] (0 beyond the end). *)
Definition byte_at (buf : list byte) (i : nat) : Z := byte_val (nth i buf x00).

(** The 2-byte and 3-byte big-endian fields at offset [i]. *)
Definition field2 (buf : list byte) (i : nat) : Z :=
  (byte_at buf i * 256 + byte_at buf (i + 1))%Z.
Definition field3 (buf : list byte) (i : nat) : Z :=
  (byte_at buf i * 65536 + byte_at buf (i + 1) * 256 + byte_at buf (i + 2))%Z.

(** A reading that carries an error status and no measurement. *)
Definition error_reading (r : PzemReading) : Prop :=
  status r ≠ "OK" ∧ status r ≠ "SIM" ∧
  voltage r = 0%float ∧ current r = 0%float ∧ power r = 0%float ∧ energy r = 0%float.

(** The serial round trip ends without a frame that decodes. *)
Definition no_sample (self : PzemNative) (io : serial_io) : Prop :=
  (∃ e, serial_round_trip self io = Raise e) ∨
  (∃ resp, serial_round_trip self io = Ok resp ∧ _decode_response resp = None) ∨
  (∃ e, serial_close io = Raise e).

(** [time.time()] is a number whose integer part, and that of its third,
    exist (it is neither infinite nor NaN). *)
Definition clock_ok (now : float) : bool :=
  is_Ok (int_of_float now) && is_Ok (int_of_float (now / float_of_int 3)%float).

Definition non_decreasing (l : list float) : Prop :=
  ∀ i j a b, i < j → l !! i = Some a → l !! j = Some b → (a <=? b)%float = true.

(** The oscillation band of the simulated voltage: 229.0 ± 0.5. *)
Definition in_voltage_band (v : float) : Prop :=
  (229.0 - 0.5 <=? v)%float = true ∧ (v <=? 229.0 + 0.5)%float = true.

(** The 25-byte fixture of the specification: voltage field [08 FC],
    current field [00 00 96]. *)
Definition fixture_frame : list byte :=
  [x01; x04; x14; x08; xfc; x00; x00; x96; x00; x00; x01; x59; x00;
   x00; x04; xd2; x00; x00; x00; x00; x00; x00; x00; x00; x00].

(** A sensor on the hardware path, and an unpacker that always faults. *)
Definition hardware_sensor : PzemNative :=
  PzemNative_init "/dev/ttyAMA0" 9600 2.0 0.2 false.
Definition simulated_sensor : PzemNative :=
  PzemNative_init "/dev/ttyAMA0" 9600 2.0 0.2 true.
Definition faulty_unpack (bs : list byte) : result Z :=
  Raise (Exception "unpack failed").

(** Ten clock values of a simulated session. *)
Definition ten_clock_values : list (float * serial_io) :=
  (λ now, (now, Responds [] (Ok tt))) <$>
  [1700000000.0; 1700000000.25; 1700000001.5; 1700000003.0; 1700000003.0;
   1700000004.75; 1700000006.0; 1700000007.5; 1700000008.0; 1700000011.0]%float.

(** [name] is a direct child of [cur] by browse name. *)
Definition found (s : Session) (cur : Node) (name : string) : Prop :=
  ∃ node, _find_child_by_browse_name s cur name = Ok (Some node).

(** Node resolution as an atomic operation: on success the stored map
    holds exactly the requested names, on any failure it is unchanged. *)
Definition resolution_atomic (self : UmatiPrWriter) : Prop :=
  match resolve_nodes self with
  | (Ok true, self', _) => dom (nodes self') = list_to_set (variable_names self)
  | (_, self', _) => nodes self' = nodes self
  end.

(** A server whose root holds the voltage variable only. *)
Definition voltage_only_session : Session :=
  {| get_children := λ n, Ok (if decide (n = "ns=1;i=74000") then ["ns=1;i=1"] else []);
     read_browse_name := λ n, Ok (if decide (n = "ns=1;i=1") then "AcVoltagePe" else "Other");
     read_attributes := λ _, Ok (3, 3)%Z;
     write_value := λ _ _, Ok tt |}.

Definition voltage_only_writer : UmatiPrWriter :=
  UmatiPrWriter_init voltage_only_session "ns=1;i=74000" []
    ["AcVoltagePe"; "AcCurrentPe"] false.

(** The same server asked for a channel it does not have. *)
Definition no_channel_writer : UmatiPrWriter :=
  UmatiPrWriter_init voltage_only_session "ns=1;i=74000" ["Monitoring"]
    ["AcVoltagePe"; "AcCurrentPe"] false.

(** What [write_values] does for one name when nothing raises. *)
Definition item_events (self : UmatiPrWriter) (values : gmap string float)
    (name : string) : list event :=
  match nodes self !! name with
  | None => [ELog ERROR (NodeNotResolved name)]
  | Some node => [EWrite node (value_for values name)]
  end.

Definition resolved (self : UmatiPrWriter) (name : string) : Prop :=
  is_Some (nodes self !! name).

(** The write issued for [name], if any, does not raise. *)
Definition write_succeeds (self : UmatiPrWriter) (values : gmap string float)
    (name : string) : Prop :=
  ∀ node, nodes self !! name = Some node →
          write_value (client self) node (value_for values name) = Ok tt.

Definition all_resolved (self : UmatiPrWriter) (names : list string) : bool :=
  forallb (λ n, bool_decide (resolved self n)) names.

(** [name] was handled: its failure was logged or its write was issued. *)
Definition visits (self : UmatiPrWriter) (tr : list event) (name : string) : Prop :=
  ELog ERROR (NodeNotResolved name) ∈ tr ∨
  ∃ node v, nodes self !! name = Some node ∧ EWrite node v ∈ tr.

(** The batch is never cut short: every name of the list is handled. *)
Definition batch_never_aborts (self : UmatiPrWriter) (values : gmap string float) : Prop :=
  ∀ name, name ∈ variable_names self → visits self (write_values self values).2 name.

(** Every resolved name of the list that has no value is written with 0.0. *)
Definition writes_missing_as_zero (self : UmatiPrWriter) (values : gmap string float)
    : Prop :=
  ∀ name node, name ∈ variable_names self → nodes self !! name = Some node →
               values !! name = None →
               EWrite node 0 ∈ (write_values self values).2.

(** A server that rejects writes to the voltage node, and a writer with
    both nodes resolved. *)
Definition rejecting_session : Session :=
  {| get_children := λ _, Ok [];
     read_browse_name := λ _, Ok "Other";
     read_attributes := λ _, Ok (3, 3)%Z;
     write_value := λ n _, if decide (n = "ns=1;i=1")
                           then Raise (Exception "BadUserAccessDenied") else Ok tt |}.

Definition two_nodes : gmap string Node :=
  <["AcVoltagePe" := "ns=1;i=1"]> (<["AcCurrentPe" := "ns=1;i=2"]> ∅).

Definition rejected_writer : UmatiPrWriter :=
  set_nodes (UmatiPrWriter_init rejecting_session "ns=1;i=74000" []
               ["AcVoltagePe"; "AcCurrentPe"] false) two_nodes.

Definition accepted_writer : UmatiPrWriter :=
  set_nodes (UmatiPrWriter_init voltage_only_session "ns=1;i=74000" []
               ["AcVoltagePe"; "AcCurrentPe"] false) two_nodes.

Definition voltage_payload : gmap string float := {["AcVoltagePe" := 230.0%float]}.

(** Attempt [k] of the retry loop fails: its [try] block raises. *)
Definition attempt_fails (cfg : Config) (w : World) (k : Z) : Prop :=
  ∃ e, (attempt cfg w k).1 = Raise e.

Definition attempt_error (cfg : Config) (w : World) (k : Z) : exn :=
  match (attempt cfg w k).1 with
  | Raise e => e
  | Ok _ => Exception ""
  end.

(** Everything a failed attempt does, up to the disconnect. *)
Definition failed_attempt_events (cfg : Config) (w : World) (k : Z) : list event :=
  (attempt cfg w k).2
  ++ [ELog WARNING (ConnectResolveFailed k (retries cfg) (attempt_error cfg w k));
      EDisconnect].

(** [blocks] in sequence with [sep] between consecutive blocks, and
    neither before the first nor after the last. *)
Fixpoint join_with {A} (sep : list A) (blocks : list (list A)) : list A :=
  match blocks with
  | [] => []
  | b :: rest =>
      match rest with
      | [] => b
      | _ :: _ => b ++ sep ++ join_with sep rest
      end
  end.

Definition start_events (cfg : Config) : list event :=
  [ELog INFO Starting; ELog INFO (ConnectingTo (cfg_endpoint cfg))].

(** Log records other than warnings. *)
Definition is_quiet_log (ev : event) : bool :=
  match ev with
  | ELog WARNING _ => false
  | ELog _ _ => true
  | _ => false
  end.

(** Exhausting the attempt ceiling makes the process exit non-zero. *)
Definition exits_nonzero_on_exhaustion (w : World) : Prop :=
  ∀ cfg, config_file w = Some cfg → (1 ≤ retries cfg)%Z →
         (∀ k, (1 ≤ k ≤ retries cfg)%Z → attempt_fails cfg w k) →
         exit_status w ≠ 0%Z.

Definition default_config (n : Z) : Config :=
  {| cfg_verbose := false; cfg_log_values := false; cfg_values_every_n := 12;
     cfg_device := "/dev/ttyAMA0"; cfg_baudrate := 9600; cfg_timeout := 2.0;
     cfg_read_delay := 0.2; cfg_simulate := false;
     v_scale := 1.0; i_scale := 1.0; p_scale := 1.0; e_scale := 1.0;
     cfg_endpoint := "opc.tcp://127.0.0.1:4840"; cfg_machine_root := "ns=1;i=74000";
     cfg_channel_path := ["Monitoring"; "Consumption"; "Electricity"; "Main"];
     cfg_var_names := ["AcVoltagePe"; "AcCurrentPe"; "AcActivePowerPe";
                       "AcActiveEnergyTotalImportHp"];
     retries := n; retry_delay := 3.0; sample := 5.0 |}.

(** A world whose server refuses every connection; the sensor answers
    nothing and the task is cancelled after [n] cycles. *)
Definition unreachable_world (retries : Z) (n : nat) : World :=
  {| config_file := Some (default_config retries);
     NodeId_from_string := λ s, Ok s;
     connect := λ _, Raise (Exception "Connection refused");
     sensor_io := λ _, (0%float, Responds [] (Ok tt));
     cycles := n;
     final_disconnect := Ok tt |}.

(** ** Further vocabulary: browsing *)

(** The child [n] answers with a browse name other than [name]. *)
Definition other_name (s : Session) (name : string) (n : Node) : Prop :=
  ∃ qn, read_browse_name s n = Ok qn ∧ qn ≠ name.

(** [n] is the first of [refs] whose browse name is [name], and the browse
    names of the nodes before it could all be read. *)
Definition first_match (s : Session) (refs : list Node) (name : string) (n : Node)
    : Prop :=
  ∃ pre post, refs = pre ++ n :: post ∧ Forall (other_name s name) pre ∧
              read_browse_name s n = Ok name.

(** [target] is reached from [cur] by following [path], one browse name
    after the other. *)
Fixpoint descends (s : Session) (cur : Node) (path : list string) (target : Node)
    : Prop :=
  match path with
  | [] => target = cur
  | segment :: rest =>
      ∃ nxt, _find_child_by_browse_name s cur segment = Ok (Some nxt) ∧
             descends s nxt rest target
  end.

(** A server with the channel [Main] under the root and two variables
    under it. *)
Definition main_channel_session : Session :=
  {| get_children := λ n,
       Ok (if decide (n = "ns=1;i=74000") then ["ns=1;i=9"; "ns=1;i=10"]
           else if decide (n = "ns=1;i=10") then ["ns=1;i=1"; "ns=1;i=2"]
           else []);
     read_browse_name := λ n,
       Ok (if decide (n = "ns=1;i=10") then "Main"
           else if decide (n = "ns=1;i=1") then "AcVoltagePe"
           else if decide (n = "ns=1;i=2") then "AcCurrentPe"
           else "Other");
     read_attributes := λ _, Ok (3, 3)%Z;
     write_value := λ _ _, Ok tt |}.

Definition main_channel_writer : UmatiPrWriter :=
  UmatiPrWriter_init main_channel_session "ns=1;i=74000" ["Main"]
    ["AcVoltagePe"; "AcCurrentPe"] false.

(** ** Further vocabulary: events *)

Definition is_unresolved_log (ev : event) : bool :=
  match ev with ELog ERROR (NodeNotResolved _) => true | _ => false end.
Definition is_disconnect (ev : event) : bool :=
  match ev with EDisconnect => true | _ => false end.
Definition is_values_log (ev : event) : bool :=
  match ev with ELog DEBUG (Values _ _ _ _) => true | _ => false end.

(** ** Further vocabulary: frames and cycles *)

(** The offsets of a frame that carry the four measurements. *)
Definition measurement_offsets : list nat := [3; 4; 5; 6; 7; 9; 10; 11; 13; 14; 15].

(** The fixture with another device address, function code and byte
    count, other filler bytes and another checksum. *)
Definition garbled_frame : list byte :=
  [xff; x10; x00; x08; xfc; x00; x00; x96; x7f; x00; x01; x59; x80;
   x00; x04; xd2; x01; x02; x03; x04; x05; x06; x07; xde; xad].

(** The four variable names of the payload, in the order of the default
    configuration. *)
Definition payload_names : list string :=
  ["AcVoltagePe"; "AcCurrentPe"; "AcActivePowerPe"; "AcActiveEnergyTotalImportHp"].

Definition four_nodes : gmap string Node :=
  <["AcVoltagePe" := "ns=1;i=1"]> (<["AcCurrentPe" := "ns=1;i=2"]>
  (<["AcActivePowerPe" := "ns=1;i=3"]>
  (<["AcActiveEnergyTotalImportHp" := "ns=1;i=4"]> ∅))).

Definition four_writer : UmatiPrWriter :=
  set_nodes (UmatiPrWriter_init main_channel_session "ns=1;i=74000" ["Main"]
               payload_names false) four_nodes.

Definition ok_reading : PzemReading :=
  {| voltage := 230.0; current := 0.150; power := 34.5; energy := 1234.0;
     status := "OK" |}.

(** ** Further vocabulary: binary64 numbers *)

(** A binary64 number that is +0, positive or +infinity. *)
Definition SFnonneg (x : spec_float) : Prop :=
  match x with
  | S754_zero false | S754_finite false _ _ | S754_infinity false => True
  | _ => False
  end.

(** ** Further vocabulary: runs of [main] *)

(** The records that node resolution and a successful connect can log. *)
Definition is_resolve_log (ev : event) : bool :=
  match ev with
  | ELog ERROR (BrowseFailed _) | ELog ERROR (VariableNotFound _)
  | ELog DEBUG (AccessLevels _ _ _) | ELog INFO Connected => true
  | _ => false
  end.

(** What the sampling loop can do: read, write, sleep and log. *)
Definition is_sampling_event (ev : event) : bool :=
  match ev with
  | ERead _ | EWrite _ _ | ESleep _ => true
  | ELog WARNING (PzemStatus _) | ELog WARNING WriteNotOk
  | ELog ERROR (NodeNotResolved _) | ELog ERROR (UaWriteException _)
  | ELog DEBUG (Values _ _ _ _) => true
  | _ => false
  end.

(** 1 when the retry loop ended with a connected writer, else 0. *)
Definition connected (o : connect_outcome) : nat :=
  match o with
  | Proceed (Some _) => 1
  | _ => 0
  end.

(** What [write_values] and the check of its result can leave in the
    trace: writes, error records and the "not ok" warning. *)
Definition is_write_side (ev : event) : bool :=
  match ev with
  | EWrite _ _ | ELog ERROR _ | ELog WARNING WriteNotOk => true
  | _ => false
  end.

(** The number of names a writer handles per cycle (none without a writer). *)
Definition names_per_cycle (writer : option UmatiPrWriter) : nat :=
  match writer with
  | Some wr => length (variable_names wr)
  | None => 0
  end.

(** The configuration of a client of [main_channel_session]. *)
Definition main_channel_config (n : Z) : Config :=
  {| cfg_verbose := false; cfg_log_values := true; cfg_values_every_n := 2;
     cfg_device := "/dev/ttyAMA0"; cfg_baudrate := 9600; cfg_timeout := 2.0;
     cfg_read_delay := 0.2; cfg_simulate := false;
     v_scale := 1.0; i_scale := 1.0; p_scale := 1.0; e_scale := 1.0;
     cfg_endpoint := "opc.tcp://127.0.0.1:4840"; cfg_machine_root := "ns=1;i=74000";
     cfg_channel_path := ["Main"];
     cfg_var_names := ["AcVoltagePe"; "AcCurrentPe"];
     retries := n; retry_delay := 3.0; sample := 5.0 |}.

(** A world whose server refuses the first connection and accepts the
    second; the sensor delivers the fixture frame in every cycle. *)
Definition second_try_world (retries : Z) (n : nat) : World :=
  {| config_file := Some (main_channel_config retries);
     NodeId_from_string := λ s, Ok s;
     connect := λ k, if decide (k = 1%Z) then Raise (Exception "Connection refused")
                     else Ok main_channel_session;
     sensor_io := λ _, (0%float, Responds fixture_frame (Ok tt));
     cycles := n;
     final_disconnect := Ok tt |}.

(** * Proofs *)

(** ** Binary64 addition and comparison

    The facts about rounding needed below, derived from the
    specification of the primitive operations in [SpecFloat]. *)
Module Binary64.
Section Addition.
Local Open Scope Z_scope.

Lemma digits2_pos_size p : digits2_pos p = Pos.size p.
Proof. induction p as [p IH|p IH|]; simpl; congruence. Qed.

Lemma digits2_pos_log2 p : Z.pos (digits2_pos p) = Z.log2 (Z.pos p) + 1.
Proof.
  rewrite digits2_pos_size.
  destruct p as [p|p|]; simpl; try reflexivity; rewrite Pos2Z.inj_succ; lia.
Qed.

Lemma shr_1_m r : 0 <= shr_m r -> shr_m (shr_1 r) = shr_m r / 2.
Proof.
  destruct r as [m rb sb]; simpl; intros Hm.
  destruct m as [|[p|p|]|p]; simpl; try reflexivity; try lia.
  - rewrite Pos2Z.inj_xI. apply Z.div_unique with 1; lia.
  - rewrite Pos2Z.inj_xO. apply Z.div_unique with 0; lia.
Qed.

Lemma iter_shr_1_m n : forall r,
  0 <= shr_m r -> shr_m (SpecFloat.iter_pos shr_1 n r) = shr_m r / 2 ^ Z.pos n.
Proof.
  assert (Hnn : forall r, 0 <= shr_m r -> 0 <= shr_m (shr_1 r)).
  { intros r Hr. rewrite shr_1_m by assumption. apply Z.div_pos; lia. }
  induction n as [n IH|n IH|]; intros r Hr; simpl SpecFloat.iter_pos.
  - assert (H1 := Hnn r Hr).
    assert (H2 : 0 <= shr_m (SpecFloat.iter_pos shr_1 n (shr_1 r))).
    { rewrite IH by assumption. apply Z.div_pos; lia. }
    rewrite IH, IH, shr_1_m by assumption.
    rewrite !Z.div_div by lia.
    f_equal. replace (Z.pos n~1) with (1 + Z.pos n + Z.pos n) by lia.
    rewrite !Z.pow_add_r by lia. rewrite Z.pow_1_r. ring.
  - assert (H2 : 0 <= shr_m (SpecFloat.iter_pos shr_1 n r)).
    { rewrite IH by assumption. apply Z.div_pos; lia. }
    rewrite IH, IH by assumption.
    rewrite Z.div_div by lia.
    f_equal. replace (Z.pos n~0) with (Z.pos n + Z.pos n) by lia.
    rewrite Z.pow_add_r by lia. ring.
  - rewrite shr_1_m by assumption. reflexivity.
Qed.

Lemma shr_exact m e n :
  0 <= m ->
  shr_m (fst (shr (Build_shr_record m false false) e n)) = m / 2 ^ Z.max 0 n
  /\ snd (shr (Build_shr_record m false false) e n) = e + Z.max 0 n.
Proof.
  intros Hm. destruct n as [|p|p]; simpl shr; cbn [fst snd shr_m].
  - rewrite Z.max_id. rewrite Z.div_1_r. lia.
  - rewrite iter_shr_1_m by (simpl; lia). simpl shr_m.
    rewrite Z.max_r by lia. split; reflexivity.
  - rewrite Z.max_l by lia. rewrite Z.div_1_r. lia.
Qed.

Abbreviation fexp64 := (fexp prec emax).
Abbreviation emin64 := (SpecFloat.emin prec emax).

Lemma fexp_ge_emin e : emin64 <= fexp64 e.
Proof. unfold fexp. lia. Qed.

Lemma fexp_mono a b : a <= b -> fexp64 a <= fexp64 b.
Proof. unfold fexp. lia. Qed.

Lemma fexp_above x e : emin64 <= x -> x < fexp64 e -> fexp64 e = e - prec.
Proof. unfold fexp. lia. Qed.

Lemma Zdigits2_log2 m : 0 < m -> Zdigits2 m = Z.log2 m + 1.
Proof. destruct m; try lia. intros _. apply digits2_pos_log2. Qed.

Lemma div_pow2_lower m k c : 0 <= k -> c * 2 ^ k <= m -> c <= m / 2 ^ k.
Proof.
  intros Hk Hc. apply Z.div_le_lower_bound; [apply Z.pow_pos_nonneg; lia | lia].
Qed.

Lemma normal_mantissa m k :
  0 < m -> 0 <= k -> k = Zdigits2 m - prec -> 2 ^ (prec - 1) <= m / 2 ^ k.
Proof.
  intros Hm Hk Ek. rewrite Zdigits2_log2 in Ek by assumption.
  apply div_pow2_lower; [assumption|].
  rewrite <- Z.pow_add_r by (unfold prec; lia).
  replace (prec - 1 + k) with (Z.log2 m) by lia.
  apply Z.log2_spec; assumption.
Qed.

Lemma round_nearest_even_ge m l : m <= round_nearest_even m l.
Proof. destruct l as [|[| |]]; simpl; try lia. destruct (Z.even m); lia. Qed.

Lemma binary_round_aux_lower M ez mx ex :
  0 < M -> emin64 <= ex -> ez <= ex ->
  ex <= fexp64 (Zdigits2 M + ez) ->
  (fexp64 (Zdigits2 M + ez) = ex -> Z.pos mx * 2 ^ (ex - ez) <= M) ->
  match binary_round_aux prec emax false M ez loc_Exact with
  | S754_infinity false => True
  | S754_finite false m e => ex < e \/ (ex = e /\ (mx <= m)%positive)
  | _ => False
  end.
Proof.
  intros HM Hemin Hez HE Hsame.
  unfold binary_round_aux, shr_fexp.
  set (E := fexp64 (Zdigits2 M + ez)) in *.
  cbn [shr_record_of_loc].
  destruct (shr_exact M ez (E - ez)) as [Hm1 He1]; [lia|].
  destruct (shr _ ez (E - ez)) as [r1 e1]. cbn [fst snd] in Hm1, He1.
  rewrite Z.max_r in Hm1, He1 by lia.
  assert (He1' : e1 = E) by lia. clear He1. subst e1.
  assert (H1 : 1 <= shr_m r1 /\ (E = ex -> Z.pos mx <= shr_m r1)).
  { rewrite Hm1. split.
    - destruct (Z.eq_dec E ex) as [Heq|Hne].
      + transitivity (Z.pos mx); [lia|].
        rewrite Heq. apply div_pow2_lower; [lia|auto].
      + transitivity (2 ^ (prec - 1)); [apply (Z.pow_le_mono_r 2 0); unfold prec; lia|].
        apply normal_mantissa; [assumption|lia|].
        unfold E. rewrite (fexp_above ex) by (fold E; lia). lia.
    - intros Heq. rewrite Heq. apply div_pow2_lower; [lia|auto]. }
  set (mr := round_nearest_even (shr_m r1) (loc_of_shr_record r1)).
  assert (Hmr : shr_m r1 <= mr) by apply round_nearest_even_ge.
  set (n2 := fexp64 (Zdigits2 mr + E) - E).
  destruct (shr_exact mr E n2) as [Hm2 He2]; [lia|].
  destruct (shr _ E n2) as [r2 e2]. cbn [fst snd] in Hm2, He2.
  assert (H2 : 1 <= shr_m r2 /\ (E = e2 -> shr_m r1 <= shr_m r2) /\ E <= e2).
  { rewrite Hm2. destruct (Z_le_gt_dec n2 0) as [Hn|Hn].
    - rewrite Z.max_l in * by lia. rewrite Z.pow_0_r, Z.div_1_r. lia.
    - rewrite Z.max_r in * by lia. split; [|lia].
      transitivity (2 ^ (prec - 1)); [apply (Z.pow_le_mono_r 2 0); unfold prec; lia|].
      apply normal_mantissa; [lia|lia|].
      unfold n2. rewrite (fexp_above E) by (fold n2; lia). lia. }
  destruct H1 as [H1a H1b]. destruct H2 as (H2a & H2b & H2c).
  destruct (shr_m r2) as [|m2|m2]; try lia.
  destruct (e2 <=? emax - prec); [|exact I].
  destruct (Z.eq_dec ex e2) as [Heq|Hne]; [right|left; lia].
  split; [assumption|]. assert (E = ex) by lia. 
  specialize (H1b ltac:(assumption)). specialize (H2b ltac:(lia)). lia.
Qed.

Lemma shl_align_fst mx ex ez :
  ez <= ex -> Z.pos (fst (shl_align mx ex ez)) = Z.pos mx * 2 ^ (ex - ez).
Proof.
  intros Hle. unfold shl_align.
  destruct (ez - ex) as [|d|d] eqn:Ed; cbn [fst].
  - replace (ex - ez) with 0 by lia. lia.
  - lia.
  - replace (ex - ez) with (Z.pos d) by lia.
    rewrite (Pos.iter_swap_gen _ _ Z.pos xO (Z.mul 2)) by reflexivity.
    change (Pos.iter (Z.mul 2) (Z.pos mx) d) with (Z.shiftl (Z.pos mx) (Z.pos d)).
    apply Z.shiftl_mul_pow2. lia.
Qed.

Lemma SFadd_finite_lower mx ex my ey :
  bounded prec emax mx ex = true ->
  match SF64add (S754_finite false mx ex) (S754_finite false my ey) with
  | S754_infinity false => True
  | S754_finite false m e => ex < e \/ (ex = e /\ (mx <= m)%positive)
  | _ => False
  end.
Proof.
  intros Hb. unfold bounded, canonical_mantissa in Hb.
  apply andb_prop in Hb as [Hcan _]. apply Z.eqb_eq in Hcan.
  unfold SF64add, SFadd. cbn [cond_Zopp].
  set (ez := Z.min ex ey).
  assert (Hx := shl_align_fst mx ex ez ltac:(lia)).
  assert (Hy := shl_align_fst my ey ez ltac:(lia)).
  destruct (shl_align mx ex ez) as [ax ?], (shl_align my ey ez) as [ay ?].
  cbn [fst] in *.
  change (Z.pos ax + Z.pos ay) with (Z.pos (ax + ay)).
  unfold binary_normalize, binary_round.
  assert (Hsum : Z.pos mx * 2 ^ (ex - ez) <= Z.pos (ax + ay)) by lia.
  assert (Hdig : Z.pos (digits2_pos mx) + ex <= Z.pos (digits2_pos (ax + ay)) + ez).
  { rewrite !digits2_pos_log2.
    enough (Z.log2 (Z.pos mx) + (ex - ez) <= Z.log2 (Z.pos (ax + ay))) by lia.
    rewrite Z.add_comm, <- Z.log2_mul_pow2 by lia. apply Z.log2_le_mono. lia. }
  assert (HE : ex <= fexp64 (Z.pos (digits2_pos (ax + ay)) + ez)).
  { rewrite <- Hcan at 1. apply fexp_mono, Hdig. }
  assert (Hal : shl_align (ax + ay) ez (fexp64 (Z.pos (digits2_pos (ax + ay)) + ez))
                = ((ax + ay)%positive, ez)).
  { unfold shl_align.
    destruct (fexp64 (Z.pos (digits2_pos (ax + ay)) + ez) - ez) eqn:Ed; try reflexivity; lia. }
  rewrite Hal.
  apply binary_round_aux_lower; try lia.
  - rewrite <- Hcan. apply fexp_ge_emin.
  - exact HE.
Qed.

Local Open Scope float_scope.

(** Adding a non-negative binary64 number never decreases a non-negative one. *)
Lemma float_add_nonneg_mono (x y : float) :
  (0 <=? x) = true -> (0 <=? y) = true ->
  (x <=? x + y) = true /\ (0 <=? x + y) = true.
Proof.
  rewrite !leb_spec, add_spec.
  assert (Hv := Prim2SF_valid x).
  change (Prim2SF 0) with (S754_zero false).
  destruct (Prim2SF x) as [sx|sx| |sx mx ex], (Prim2SF y) as [sy|sy| |sy my ey];
    try destruct sx; try destruct sy; try discriminate; intros _ _;
    try (split; reflexivity).
  1, 2: split; [|reflexivity]; unfold SF64add, SFadd, SFleb, SFcompare;
    rewrite Z.compare_refl, Pos.compare_cont_refl; reflexivity.
  assert (H := SFadd_finite_lower mx ex my ey Hv).
    destruct (SF64add _ _) as [s|s| |s m e]; try destruct s; try contradiction;
      split; try reflexivity.
    unfold SFleb, SFcompare.
    destruct H as [Hlt|[Heq Hle]].
  - apply Z.compare_lt_iff in Hlt. rewrite Hlt. reflexivity.
  - subst e. rewrite Z.compare_refl.
      fold (Pos.compare mx m). destruct (Pos.compare_spec mx m); try reflexivity; lia.
Qed.

Lemma SFleb_trans x y z :
  SFleb x y = true -> SFleb y z = true -> SFleb x z = true.
Proof.
  unfold SFleb, SFcompare.
  destruct x as [sx|sx| |sx mx ex], y as [sy|sy| |sy my ey], z as [sz|sz| |sz mz ez];
    try destruct sx; try destruct sy; try destruct sz; try (intros; congruence);
    try reflexivity.
  all: fold (Pos.compare mx my); fold (Pos.compare my mz); fold (Pos.compare mx mz).
  all: destruct (Z.compare_spec ex ey), (Z.compare_spec ey ez), (Z.compare_spec ex ez);
    try (intros; congruence); try lia; try reflexivity.
  all: destruct (Pos.compare_spec mx my), (Pos.compare_spec my mz), (Pos.compare_spec mx mz);
    simpl; try (intros; congruence); try lia.
Qed.

Lemma float_leb_trans (x y z : float) :
  (x <=? y) = true -> (y <=? z) = true -> (x <=? z) = true.
Proof. rewrite !leb_spec. apply SFleb_trans. Qed.
End Addition.
End Binary64.

(** ** The frame decoder *)

Lemma be_int_2 (a b : byte) : be_int [a; b] = (byte_val a * 256 + byte_val b)%Z.
Proof. unfold be_int. simpl. lia. Qed.

Lemma be_int_lead0_3 (a b c : byte) :
  be_int [x00; a; b; c] = (byte_val a * 65536 + byte_val b * 256 + byte_val c)%Z.
Proof. unfold be_int. simpl. change (byte_val x00) with 0%Z. lia. Qed.

(** On a buffer of at least 25 bytes no [struct.unpack] can fail: each
    slice has the size of its format. *)
Lemma extract_fields_long (buf : list byte) :
  25 ≤ length buf →
  extract_fields struct_unpack_H struct_unpack_I buf =
  Ok {| voltage := (float_of_int (field2 buf 3) / 10.0)%float;
        current := (float_of_int (field3 buf 5) / 1000.0)%float;
        power := (float_of_int (field3 buf 9) / 10.0)%float;
        energy := float_of_int (field3 buf 13);
        status := "OK" |}.
Proof.
  intros Hlen.
  do 25 (destruct buf as [|? buf]; [simpl in Hlen; lia|]).
  unfold extract_fields, struct_unpack_H, struct_unpack_I, struct_unpack.
  unfold field2, field3, byte_at, slice.
  cbn [take drop Nat.sub Nat.add nth length].
  rewrite !decide_True by reflexivity.
  cbn [mbind result_bind].
  rewrite be_int_2, !be_int_lead0_3. reflexivity.
Qed.

Lemma decode_response_long (buf : list byte) :
  25 ≤ length buf →
  _decode_response buf =
  Some {| voltage := (float_of_int (field2 buf 3) / 10.0)%float;
          current := (float_of_int (field3 buf 5) / 1000.0)%float;
          power := (float_of_int (field3 buf 9) / 10.0)%float;
          energy := float_of_int (field3 buf 13);
          status := "OK" |}.
Proof.
  intros Hlen. unfold _decode_response, decode_with.
  rewrite decide_False by lia. rewrite extract_fields_long by assumption. reflexivity.
Qed.

Lemma decode_with_short unpack_H unpack_I (buf : list byte) :
  length buf < 25 → decode_with unpack_H unpack_I buf = None.
Proof. intros Hlen. unfold decode_with. rewrite decide_True by assumption. reflexivity. Qed.

(** C3: on every buffer of at least 25 bytes the decoder returns a reading
    whose voltage is the 2-byte big-endian field at offset 3 divided by
    10.0 (the field scaled by a tenth), whose current is the 3-byte field
    at offset 5 divided by 1000.0, whose power is the 3-byte field at
    offset 9 divided by 10.0 and whose energy is the 3-byte field at
    offset 13 itself; with [08 FC] at offsets 3-4 and [00 00 96] at
    offsets 5-7 the voltage is exactly 230.0 and the current exactly
    0.150. *)
Theorem decode_response_fields (buf : list byte) :
  25 ≤ length buf →
  ∃ r, _decode_response buf = Some r ∧
    voltage r = (float_of_int (field2 buf 3) / 10.0)%float ∧
    current r = (float_of_int (field3 buf 5) / 1000.0)%float ∧
    power r = (float_of_int (field3 buf 9) / 10.0)%float ∧
    energy r = float_of_int (field3 buf 13) ∧
    status r = "OK" ∧
    (nth 3 buf x00 = x08 → nth 4 buf x00 = xfc →
     nth 5 buf x00 = x00 → nth 6 buf x00 = x00 → nth 7 buf x00 = x96 →
     voltage r = 230.0%float ∧ current r = 0.150%float).
Proof.
  intros Hlen. eexists. split; [apply decode_response_long, Hlen|].
  cbn [voltage current power energy status].
  do 5 (split; [reflexivity|]).
  intros H3 H4 H5 H6 H7. unfold field2, field3, byte_at. cbn [Nat.add].
  rewrite H3, H4, H5, H6, H7. split; reflexivity.
Qed.

Lemma decode_response_fields_witness :
  ∃ r, _decode_response fixture_frame = Some r ∧
       voltage r = 230.0%float ∧ current r = 0.150%float.
Proof.
  destruct (decode_response_fields fixture_frame) as (r & Hr & _ & _ & _ & _ & _ & Hfix).
  - simpl. lia.
  - exists r. split; [exact Hr|]. apply Hfix; reflexivity.
Defined.

(** C7: the decoder is a total function into [option PzemReading]: it
    returns [None] on every buffer shorter than 25 bytes and whenever the
    extraction raises, and a reading otherwise; no exception escapes. *)
Theorem decode_never_raises (unpack_H unpack_I : list byte → result Z) (buf : list byte) :
  (length buf < 25 → decode_with unpack_H unpack_I buf = None) ∧
  (∀ e, extract_fields unpack_H unpack_I buf = Raise e →
        decode_with unpack_H unpack_I buf = None) ∧
  (decode_with unpack_H unpack_I buf = None ∨
   ∃ r, decode_with unpack_H unpack_I buf = Some r ∧ 25 ≤ length buf ∧
        extract_fields unpack_H unpack_I buf = Ok r).
Proof.
  split; [apply decode_with_short|].
  unfold decode_with. destruct (decide (length buf < 25)) as [Hs|Hl].
  - split; [reflexivity|left; reflexivity].
  - destruct (extract_fields unpack_H unpack_I buf) as [r|e'].
    + split; [discriminate|]. right. exists r. repeat split. lia.
    + split; [reflexivity|left; reflexivity].
Qed.

Lemma decode_never_raises_witness :
  _decode_response (take 24 fixture_frame) = None ∧
  decode_with faulty_unpack struct_unpack_I fixture_frame = None.
Proof.
  split.
  - apply (decode_never_raises struct_unpack_H struct_unpack_I (take 24 fixture_frame)).
    simpl. lia.
  - apply (decode_never_raises faulty_unpack struct_unpack_I fixture_frame)
      with (e := Exception "unpack failed").
    reflexivity.
Defined.

(** ** The sensor *)

Lemma error_reading_status (s : string) :
  s ≠ "OK" → s ≠ "SIM" → error_reading (PzemReading_status s).
Proof. intros H1 H2. repeat split; assumption. Qed.

Lemma short_response_no_sample (self : PzemNative) (avail : list byte)
    (close : result unit) :
  length avail < 25 → no_sample self (Responds avail close).
Proof.
  intros Hlen. unfold no_sample. cbn [serial_round_trip].
  destruct (time_sleep (read_delay self)) as [[]|e]; cbn [mbind result_bind].
  - right. left. eexists. split; [reflexivity|].
    apply decode_with_short. rewrite length_take. lia.
  - left. eexists. reflexivity.
Qed.

(** On the hardware path [read] returns a reading in every case. *)
Lemma read_hardware (self : PzemNative) (now : float) (io : serial_io) :
  simulate self = false →
  ∃ r, (read self now io).1 = Ok r ∧
       (no_sample self io → error_reading r) ∧
       simulate (read self now io).2 = false.
Proof.
  intros Hsim. unfold read, no_sample. rewrite Hsim.
  destruct (serial_round_trip self io) as [resp|e] eqn:Hio.
  - destruct (_decode_response resp) as [rd|] eqn:Hdec,
             (serial_close io) as [[]|e'] eqn:Hclose;
      eexists; (split; [reflexivity|]); (split; [|exact Hsim]).
    + intros [[e He]|[(resp' & Hr & Hd)|[e He]]]; congruence.
    + intros _. apply error_reading_status; discriminate.
    + intros _. apply error_reading_status; discriminate.
    + intros _. apply error_reading_status; discriminate.
  - destruct (serial_close io) as [[]|e'];
      (eexists; split; [reflexivity|]; split; [|exact Hsim]);
      intros _; apply error_reading_status; discriminate.
Qed.

(** C6: on the hardware path [read] always returns a reading, whatever
    the serial port does; when the port raises (on open, write, read or
    close), answers nothing, answers fewer than 25 bytes or the frame
    does not decode, the reading has an error status and all four
    measurements are zero. *)
Theorem read_never_fails (self : PzemNative) (now : float) (io : serial_io) :
  simulate self = false →
  ∃ r, (read self now io).1 = Ok r ∧
    (no_sample self io ∨
     (∃ close, io = Responds [] close) ∨
     (∃ avail close, io = Responds avail close ∧ length avail < 25) →
     error_reading r).
Proof.
  intros Hsim. destruct (read_hardware self now io Hsim) as (r & Hr & Herr & _).
  exists r. split; [exact Hr|]. intros Hno. apply Herr.
  destruct Hno as [H|[[close ->]|(avail & close & -> & Hlen)]]; [exact H| |].
  - apply short_response_no_sample. simpl. lia.
  - apply short_response_no_sample, Hlen.
Qed.

Lemma read_never_fails_witness :
  ∃ r, (read hardware_sensor 0 (Responds (take 7 fixture_frame) (Ok tt))).1 = Ok r ∧
       error_reading r.
Proof.
  destruct (read_never_fails hardware_sensor 0 (Responds (take 7 fixture_frame) (Ok tt)))
    as (r & Hr & Herr).
  - reflexivity.
  - exists r. split; [exact Hr|]. apply Herr. right. right.
    do 2 eexists. split; [reflexivity|]. simpl. lia.
Defined.

(** *** Simulate mode *)

(** The synthetic voltage takes the two values 229.0 ± 0.5. *)
Lemma sim_voltage_cases (now v : float) :
  sim_voltage now = Ok v → v = 229.5%float ∨ v = 228.5%float.
Proof.
  unfold sim_voltage. destruct (int_of_float now) as [t|e]; [|discriminate].
  cbn [mbind result_bind]. destruct (decide _); intros [= <-]; [left|right]; reflexivity.
Qed.

Lemma sim_current_cases (now c : float) :
  sim_current now = Ok c →
  c = (0.150 + 0.010 * float_of_int 1)%float ∨ c = (0.150 + 0.010 * float_of_int (-1))%float.
Proof.
  unfold sim_current. destruct (int_of_float _) as [t|e]; [|discriminate].
  cbn [mbind result_bind]. destruct (decide _); intros [= <-]; [left|right]; reflexivity.
Qed.

Lemma sim_voltage_band (now v : float) :
  sim_voltage now = Ok v → in_voltage_band v.
Proof. intros [-> | ->]%sim_voltage_cases; split; reflexivity. Qed.

(** The energy added by one simulated read is never negative. *)
Lemma sim_increment_nonneg (now v c : float) :
  sim_voltage now = Ok v → sim_current now = Ok c →
  (0 <=? v * c * (5.0 / 3600.0))%float = true.
Proof.
  intros [-> | ->]%sim_voltage_cases [-> | ->]%sim_current_cases; reflexivity.
Qed.

Lemma clock_ok_sim (now : float) :
  clock_ok now = true → ∃ v c, sim_voltage now = Ok v ∧ sim_current now = Ok c.
Proof.
  unfold clock_ok, sim_voltage, sim_current. intros [H1 H2]%andb_prop.
  destruct (int_of_float now); [|discriminate].
  destruct (int_of_float (now / _)); [|discriminate].
  cbn [mbind result_bind]. eauto.
Qed.

(** One simulated read: it returns, stores the energy it reports, stays
    in the band and does not decrease the accumulated energy. *)
Lemma read_simulate (self : PzemNative) (now : float) (io : serial_io) :
  simulate self = true → clock_ok now = true →
  ∃ r, read self now io = (Ok r, set_last_energy self (energy r)) ∧
       in_voltage_band (voltage r) ∧
       ((0 <=? _last_energy self)%float = true →
        (_last_energy self <=? energy r)%float = true ∧ (0 <=? energy r)%float = true).
Proof.
  intros Hsim (v & c & Hv & Hc)%clock_ok_sim.
  unfold read. rewrite Hsim, Hv, Hc. cbn [set_last_energy _last_energy].
  exists {| voltage := v; current := c; power := (v * c)%float;
            energy := (_last_energy self + v * c * (5.0 / 3600.0))%float;
            status := "SIM" |}.
  split; [reflexivity|]. cbn [voltage energy]. split.
  - eapply sim_voltage_band, Hv.
  - intros Hpos. apply Binary64.float_add_nonneg_mono; [exact Hpos|].
    eapply sim_increment_nonneg; eassumption.
Qed.

Lemma non_decreasing_cons (a : float) (l : list float) :
  Forall (λ b, (a <=? b)%float = true) l → non_decreasing l → non_decreasing (a :: l).
Proof.
  intros Hall Hl i j x y Hij Hi Hj.
  destruct j as [|j]; [lia|]. cbn in Hj.
  destruct i as [|i]; cbn in Hi.
  - injection Hi as <-. rewrite Forall_forall in Hall.
    apply Hall. eapply list_elem_of_lookup_2, Hj.
  - apply (Hl i j); [lia|assumption..].
Qed.

Lemma read_many_simulate (inputs : list (float * serial_io)) : ∀ self : PzemNative,
  simulate self = true → (0 <=? _last_energy self)%float = true →
  Forall (λ x, clock_ok x.1 = true) inputs →
  ∃ rs, (read_many self inputs).1 = Ok <$> rs ∧
        Forall (λ r, in_voltage_band (voltage r)) rs ∧
        Forall (λ e, (_last_energy self <=? e)%float = true) (energy <$> rs) ∧
        non_decreasing (energy <$> rs).
Proof.
  induction inputs as [|[now io] inputs IH]; intros self Hsim Hpos Hok.
  - exists []. repeat split; try constructor. intros i j a b _ Hi. discriminate.
  - apply Forall_cons in Hok as [Hnow Hok]. cbn [fst] in Hnow.
    destruct (read_simulate self now io Hsim Hnow) as (r & Hr & Hband & Hmono).
    destruct (Hmono Hpos) as [Hle Hpos'].
    destruct (IH (set_last_energy self (energy r)) Hsim Hpos' Hok)
      as (rs & Hrs & Hbands & Hlow & Hsorted).
    cbn [set_last_energy _last_energy] in Hlow.
    exists (r :: rs). cbn [read_many]. rewrite Hr.
    destruct (read_many _ inputs) as [rs' self'']. cbn [fst] in *. subst rs'.
    split; [reflexivity|]. split; [constructor; assumption|]. split.
    + rewrite fmap_cons. constructor; [exact Hle|].
      eapply Forall_impl; [exact Hlow|]. cbn. intros e He.
      eapply Binary64.float_leb_trans; eassumption.
    + rewrite fmap_cons. apply non_decreasing_cons; assumption.
Qed.

(** C8: in simulate mode, consecutive reads of one sensor object all
    return; their energies never decrease and every voltage lies in the
    band 229.0 ± 0.5. *)
Theorem simulate_energy_monotone (device : string) (baudrate : Z)
    (timeout read_delay : float) (inputs : list (float * serial_io)) :
  Forall (λ x, clock_ok x.1 = true) inputs →
  ∃ rs, (read_many (PzemNative_init device baudrate timeout read_delay true) inputs).1
        = Ok <$> rs ∧
        non_decreasing (energy <$> rs) ∧
        Forall (λ r, in_voltage_band (voltage r)) rs.
Proof.
  intros Hok.
  destruct (read_many_simulate inputs
              (PzemNative_init device baudrate timeout read_delay true))
    as (rs & Hrs & Hband & _ & Hsorted); [reflexivity..|exact Hok|].
  exists rs. auto.
Qed.

Lemma simulate_energy_monotone_witness :
  ∃ rs, (read_many simulated_sensor ten_clock_values).1 = Ok <$> rs ∧
        non_decreasing (energy <$> rs) ∧
        Forall (λ r, in_voltage_band (voltage r)) rs.
Proof.
  apply (simulate_energy_monotone "/dev/ttyAMA0" 9600 2.0 0.2 ten_clock_values).
  unfold ten_clock_values. cbn [fmap list_fmap].
  repeat constructor.
Defined.

(** ** Node resolution *)

Lemma pick_variables_success (s : Session) (cur : Node) (names : list string) :
  ∀ (m m' : gmap string Node) (tr : list event),
  pick_variables s cur names m = (Ok true, m', tr) →
  dom m' = dom m ∪ list_to_set names.
Proof.
  induction names as [|name rest IH]; intros m m' tr; cbn [pick_variables].
  - intros [= <- _]. set_solver.
  - destruct (_find_child_by_browse_name s cur name) as [[node|]|e]; try discriminate.
    intros Hrest%IH. rewrite Hrest, dom_insert_L. set_solver.
Qed.

(** The entries stored before the first name that is not found stay in
    the map. *)
Lemma pick_variables_missing (s : Session) (cur : Node) (name : string)
    (post pre : list string) :
  ∀ m : gmap string Node,
  Forall (found s cur) pre → ¬ found s cur name →
  ∃ r m' tr, pick_variables s cur (pre ++ name :: post) m = (r, m', tr) ∧
             r ≠ Ok true ∧ dom m' = dom m ∪ list_to_set pre.
Proof.
  induction pre as [|p pre IH]; intros m Hpre Hname; cbn [app pick_variables].
  - destruct (_find_child_by_browse_name s cur name) as [[node|]|e] eqn:Hfind.
    + destruct Hname. exists node. exact Hfind.
    + do 3 eexists. split; [reflexivity|]. split; [discriminate|set_solver].
    + do 3 eexists. split; [reflexivity|]. split; [discriminate|set_solver].
  - apply Forall_cons in Hpre as [[node Hp] Hpre]. rewrite Hp.
    destruct (IH (<[p := node]> m) Hpre Hname) as (r & m' & tr & Heq & Hr & Hdom).
    exists r, m', tr. split; [exact Heq|]. split; [exact Hr|].
    rewrite Hdom, dom_insert_L. set_solver.
Qed.

(** C1: [resolve_nodes] returns true, false or raises.  When it returns
    true the stored map has gained exactly the requested names (for a
    fresh writer it holds exactly those names, one entry per name).  A
    missing path segment fails with the writer untouched.  A missing
    variable fails too, but the entries of the names before it have
    already been stored. *)
Theorem resolve_nodes_outcome (self : UmatiPrWriter) :
  ∃ r self' tr, resolve_nodes self = (r, self', tr) ∧
    (r = Ok true →
     dom (nodes self') = dom (nodes self) ∪ list_to_set (variable_names self)) ∧
    ((∀ cur, (walk_channel_path (client self) (machine_root_id self)
                (channel_path self)).1 ≠ Ok (Some cur)) →
     r ≠ Ok true ∧ self' = self) ∧
    (∀ cur pre name post,
       (walk_channel_path (client self) (machine_root_id self)
          (channel_path self)).1 = Ok (Some cur) →
       variable_names self = pre ++ name :: post →
       Forall (found (client self) cur) pre → ¬ found (client self) cur name →
       r ≠ Ok true ∧ dom (nodes self') = dom (nodes self) ∪ list_to_set pre).
Proof.
  unfold resolve_nodes.
  destruct (walk_channel_path _ _ _) as [[[cur|]|e] tr] eqn:Hwalk; cbn [fst].
  - destruct (pick_variables _ cur _ _) as [[r m] tr'] eqn:Hpick.
    assert (Hmiss : ∀ pre name post,
      variable_names self = pre ++ name :: post →
      Forall (found (client self) cur) pre → ¬ found (client self) cur name →
      r ≠ Ok true ∧ dom m = dom (nodes self) ∪ list_to_set pre).
    { intros pre name post Hnames Hpre Hname.
      destruct (pick_variables_missing (client self) cur name post pre
                  (nodes self) Hpre Hname) as (r1 & m1 & tr1 & Heq & Hr & Hdom).
      rewrite <- Hnames, Hpick in Heq. injection Heq as <- <- <-. auto. }
    destruct r as [[|]|e].
    + apply pick_variables_success in Hpick as Hdom.
      assert (Hno : ∀ r' : result bool, ∀ pre name post cur',
        Ok (Some cur) = Ok (Some cur') →
        variable_names self = pre ++ name :: post →
        Forall (found (client self) cur') pre → ¬ found (client self) cur' name →
        r' ≠ Ok true ∧ dom m = dom (nodes self) ∪ list_to_set pre).
      { intros r' pre name post cur' [= <-] Hn Hp Hm.
        destruct (Hmiss pre name post Hn Hp Hm) as [Hr _]. congruence. }
      destruct (verbose self).
      * destruct (inspect_access_levels _ _) as [[[]|e] tr''];
          do 3 eexists; (split; [reflexivity|]); cbn [nodes set_nodes];
          (split; [intros _; exact Hdom|]); (split; [intros H; destruct (H cur eq_refl)|]);
          intros cur' pre name post Hc Hn Hp Hm; eapply Hno; eassumption.
      * do 3 eexists; (split; [reflexivity|]); cbn [nodes set_nodes];
          (split; [intros _; exact Hdom|]); (split; [intros H; destruct (H cur eq_refl)|]);
          intros cur' pre name post Hc Hn Hp Hm; eapply Hno; eassumption.
    + do 3 eexists. split; [reflexivity|]. cbn [nodes set_nodes].
      split; [discriminate|]. split; [intros H; destruct (H cur eq_refl)|].
      intros cur' pre name post [= <-] Hn Hp Hm. eapply Hmiss; eassumption.
    + do 3 eexists. split; [reflexivity|]. cbn [nodes set_nodes].
      split; [discriminate|]. split; [intros H; destruct (H cur eq_refl)|].
      intros cur' pre name post [= <-] Hn Hp Hm. eapply Hmiss; eassumption.
  - exists (Ok false), self, tr. split; [reflexivity|].
    split; [discriminate|]. split; [intros _; split; [discriminate|reflexivity]|].
    intros; discriminate.
  - exists (Raise e), self, tr. split; [reflexivity|].
    split; [discriminate|]. split; [intros _; split; [discriminate|reflexivity]|].
    intros; discriminate.
Qed.

Lemma voltage_only_resolve :
  resolve_nodes voltage_only_writer =
  (Ok false, set_nodes voltage_only_writer {["AcVoltagePe" := "ns=1;i=1"]},
   [ELog ERROR (VariableNotFound "AcCurrentPe")]).
Proof. reflexivity. Qed.

Lemma resolve_nodes_outcome_witness :
  (∃ r self' tr, resolve_nodes voltage_only_writer = (r, self', tr) ∧
     r ≠ Ok true ∧
     dom (nodes self') = dom (nodes voltage_only_writer) ∪ list_to_set ["AcVoltagePe"]) ∧
  (∃ r self' tr, resolve_nodes no_channel_writer = (r, self', tr) ∧
     r ≠ Ok true ∧ self' = no_channel_writer).
Proof.
  split.
  - destruct (resolve_nodes_outcome voltage_only_writer)
      as (r & self' & tr & Hr & _ & _ & H).
    exists r, self', tr. split; [exact Hr|].
    apply (H "ns=1;i=74000" ["AcVoltagePe"] "AcCurrentPe" []).
    + reflexivity.
    + reflexivity.
    + repeat constructor. exists "ns=1;i=1". reflexivity.
    + intros [node Hnode]. vm_compute in Hnode. discriminate.
  - destruct (resolve_nodes_outcome no_channel_writer)
      as (r & self' & tr & Hr & _ & H & _).
    exists r, self', tr. split; [exact Hr|].
    apply H. intros cur Hcur. vm_compute in Hcur. discriminate.
Defined.

(** Resolution is not atomic: with the second variable missing the call
    fails and leaves the first variable in the stored map. *)
Lemma resolve_nodes_not_atomic : ¬ resolution_atomic voltage_only_writer.
Proof.
  unfold resolution_atomic. rewrite voltage_only_resolve.
  cbn [nodes set_nodes voltage_only_writer UmatiPrWriter_init].
  intros Heq. apply (f_equal (λ m : gmap string string, m !! "AcVoltagePe")) in Heq.
  rewrite lookup_singleton_eq, lookup_empty in Heq. discriminate.
Qed.

(** ** Writing values *)

Section WriteValues.
Variable self : UmatiPrWriter.
Variable values : gmap string float.

Lemma all_resolved_Forall (names : list string) :
  all_resolved self names = true ↔ Forall (resolved self) names.
Proof.
  unfold all_resolved. rewrite forallb_forall, Forall_forall.
  split; intros H n Hn.
  - apply list_elem_of_In, H in Hn. apply bool_decide_eq_true in Hn. exact Hn.
  - apply bool_decide_eq_true, H, list_elem_of_In, Hn.
Qed.

(** While no write raises, the loop handles the names one after the
    other in list order. *)
Lemma write_loop_prefix (pre rest : list string) : ∀ ok : bool,
  Forall (write_succeeds self values) pre →
  write_loop (client self) (nodes self) (pre ++ rest) values ok =
  ((write_loop (client self) (nodes self) rest values (ok && all_resolved self pre)).1,
   concat (item_events self values <$> pre)
   ++ (write_loop (client self) (nodes self) rest values (ok && all_resolved self pre)).2).
Proof.
  induction pre as [|name pre IH]; intros ok Hpre.
  - cbn. rewrite andb_true_r. destruct (write_loop _ _ rest values ok); reflexivity.
  - apply Forall_cons in Hpre as [Hname Hpre].
    assert (Hb : all_resolved self (name :: pre)
                 = match nodes self !! name with Some _ => true | None => false end
                   && all_resolved self pre).
    { unfold all_resolved, resolved. cbn [forallb]. f_equal.
      destruct (nodes self !! name);
        [apply bool_decide_eq_true_2; eauto
        |apply bool_decide_eq_false_2; intros [? ?]; discriminate]. }
    rewrite Hb. cbn [app write_loop fmap list_fmap concat].
    unfold item_events at 1.
    destruct (nodes self !! name) as [node|] eqn:Hnode.
    + rewrite (Hname node Hnode). rewrite (IH ok Hpre). reflexivity.
    + rewrite (IH false Hpre). cbn [andb]. rewrite andb_false_r. reflexivity.
Qed.

Lemma write_loop_true (names : list string) : ∀ (ok : bool) (tr : list event),
  write_loop (client self) (nodes self) names values ok = (Ok true, tr) →
  ok = true ∧
  Forall (λ name, resolved self name ∧ write_succeeds self values name) names.
Proof.
  induction names as [|name rest IH]; intros ok tr; cbn [write_loop].
  - intros [= -> _]. split; [reflexivity|constructor].
  - destruct (nodes self !! name) as [node|] eqn:Hnode.
    + destruct (write_value _ node _) as [[]|e] eqn:Hw; [|discriminate].
      destruct (write_loop _ _ rest values ok) as [r tr'] eqn:Hrest.
      intros [= -> _]. destruct (IH _ _ Hrest) as [-> Hall].
      split; [reflexivity|]. constructor; [|exact Hall].
      split; [eexists; exact Hnode|]. intros node' Hnode'.
      rewrite Hnode in Hnode'. injection Hnode' as <-. exact Hw.
    + destruct (write_loop _ _ rest values false) as [r tr'] eqn:Hrest.
      intros [= -> _]. destruct (IH _ _ Hrest) as [[=] _].
Qed.

(** A resolution failure is logged only for names that are not resolved. *)
Lemma write_loop_log_unresolved (name : string) (names : list string) : ∀ ok : bool,
  ELog ERROR (NodeNotResolved name) ∈ (write_loop (client self) (nodes self) names values ok).2 →
  nodes self !! name = None.
Proof.
  induction names as [|n rest IH]; intros ok; cbn [write_loop snd].
  - intros []%elem_of_nil.
  - destruct (nodes self !! n) as [node|] eqn:Hnode.
    + destruct (write_value _ node _) as [[]|e].
      * specialize (IH ok). destruct (write_loop _ _ rest values ok) as [r tr'].
        cbn [snd] in *. intros [[=]|Hin]%elem_of_cons. auto.
      * cbn [snd]. intros [[=]|[]%elem_of_nil]%elem_of_cons.
    + specialize (IH false). destruct (write_loop _ _ rest values false) as [r tr'].
      cbn [snd] in *. intros [[= ->]|Hin]%elem_of_cons; auto.
Qed.

Lemma write_values_unfold :
  write_values self values =
  match write_loop (client self) (nodes self) (variable_names self) values true with
  | (Ok ok, tr) => (ok, tr)
  | (Raise e, tr) => (false, tr ++ [ELog ERROR (UaWriteException e)])
  end.
Proof. reflexivity. Qed.

(** The loop from the first name whose write raises. *)
Lemma write_loop_raise (name : string) (post : list string) (node : Node)
    (e : exn) (ok : bool) :
  nodes self !! name = Some node →
  write_value (client self) node (value_for values name) = Raise e →
  write_loop (client self) (nodes self) (name :: post) values ok = (Raise e, [EWrite node (value_for values name)]).
Proof. intros Hnode Hw. cbn [write_loop]. rewrite Hnode, Hw. reflexivity. Qed.
End WriteValues.

(** C2: [write_values] always returns a boolean and a trace; no exception
    reaches the caller.  While no write raises, the names are handled in
    list order, an unresolved name being logged and skipped without
    ending the batch, and the result is true exactly when every name was
    resolved.  The first write that raises ends the batch: the names
    after it are not handled and the result is false.  The result is
    true only if every name was resolved and written. *)
Theorem write_values_outcome (self : UmatiPrWriter) (values : gmap string float) :
  ∃ ok tr, write_values self values = (ok, tr) ∧
    (Forall (write_succeeds self values) (variable_names self) →
     tr = concat (item_events self values <$> variable_names self) ∧
     (ok = true ↔ Forall (resolved self) (variable_names self))) ∧
    (∀ pre name post node e,
       variable_names self = pre ++ name :: post →
       Forall (write_succeeds self values) pre →
       nodes self !! name = Some node →
       write_value (client self) node (value_for values name) = Raise e →
       ok = false ∧
       tr = concat (item_events self values <$> pre)
            ++ [EWrite node (value_for values name); ELog ERROR (UaWriteException e)]) ∧
    (ok = true →
     Forall (λ name, resolved self name ∧ write_succeeds self values name)
       (variable_names self)).
Proof.
  destruct (write_values self values) as [ok tr] eqn:Hwv. exists ok, tr.
  split; [reflexivity|]. rewrite write_values_unfold in Hwv.
  split; [|split].
  - intros Hall. revert Hwv. rewrite <- (app_nil_r (variable_names self)) at 1.
    rewrite write_loop_prefix by assumption. cbn. rewrite app_nil_r.
    intros [= <- <-]. split; [reflexivity|]. apply all_resolved_Forall.
  - intros pre name post node e Hnames Hpre Hnode Hraise.
    revert Hwv. rewrite Hnames, write_loop_prefix by assumption.
    erewrite write_loop_raise by eassumption. cbn. intros [= <- <-].
    rewrite <- app_assoc. split; reflexivity.
  - intros ->. destruct (write_loop _ _ _ _ _) as [[ok'|e] tr'] eqn:Hloop; [|discriminate].
    injection Hwv as -> ->. eapply write_loop_true, Hloop.
Qed.

Lemma rejected_write_values :
  write_values rejected_writer voltage_payload =
  (false, [EWrite "ns=1;i=1" 230.0; ELog ERROR (UaWriteException (Exception "BadUserAccessDenied"))]).
Proof. reflexivity. Qed.

Lemma write_values_outcome_witness :
  (∃ ok tr, write_values rejected_writer voltage_payload = (ok, tr) ∧
     ok = false ∧
     tr = concat (item_events rejected_writer voltage_payload <$> [])
          ++ [EWrite "ns=1;i=1" (value_for voltage_payload "AcVoltagePe");
              ELog ERROR (UaWriteException (Exception "BadUserAccessDenied"))]) ∧
  (∃ ok tr, write_values voltage_only_writer voltage_payload = (ok, tr) ∧
     tr = concat (item_events voltage_only_writer voltage_payload
                  <$> variable_names voltage_only_writer) ∧
     (ok = true ↔ Forall (resolved voltage_only_writer)
                    (variable_names voltage_only_writer))).
Proof.
  split.
  - destruct (write_values_outcome rejected_writer voltage_payload)
      as (ok & tr & Hwv & _ & Hraise & _).
    exists ok, tr. split; [exact Hwv|].
    apply (Hraise [] "AcVoltagePe" ["AcCurrentPe"] "ns=1;i=1"
             (Exception "BadUserAccessDenied")).
    + reflexivity.
    + constructor.
    + reflexivity.
    + reflexivity.
  - destruct (write_values_outcome voltage_only_writer voltage_payload)
      as (ok & tr & Hwv & Hall & _).
    exists ok, tr. split; [exact Hwv|]. apply Hall.
    repeat constructor.
Defined.

(** A write that raises ends the batch: the name after it is neither
    written nor logged. *)
Lemma write_values_aborts : ¬ batch_never_aborts rejected_writer voltage_payload.
Proof.
  intros Hall.
  assert (Hin : "AcCurrentPe" ∈ variable_names rejected_writer) by (cbn; set_solver).
  apply Hall in Hin. rewrite rejected_write_values in Hin. cbn [snd] in Hin.
  destruct Hin as [Hlog|(node & v & Hnode & Hw)].
  - apply elem_of_cons in Hlog as [[=]|Hlog].
    apply elem_of_cons in Hlog as [[=]|Hlog].
    apply elem_of_nil in Hlog as [].
  - vm_compute in Hnode. injection Hnode as <-.
    apply elem_of_cons in Hw as [[=]|Hw].
    apply elem_of_cons in Hw as [[=]|Hw].
    apply elem_of_nil in Hw as [].
Qed.

(** C9: a name of the list that is resolved but has no entry in [values]
    is written with 0.0 and no resolution failure is logged for it,
    provided the loop reaches it, that is, no write for an earlier name
    of the list raised. *)
Theorem write_values_default_zero (self : UmatiPrWriter) (values : gmap string float)
    (pre post : list string) (name : string) (node : Node) :
  variable_names self = pre ++ name :: post →
  nodes self !! name = Some node →
  values !! name = None →
  Forall (write_succeeds self values) pre →
  EWrite node 0 ∈ (write_values self values).2 ∧
  ELog ERROR (NodeNotResolved name) ∉ (write_values self values).2.
Proof.
  intros Hnames Hnode Hval Hpre. rewrite write_values_unfold. split.
  - rewrite Hnames, write_loop_prefix by assumption.
    assert (Hin : EWrite node 0 ∈
              (write_loop (client self) (nodes self) (name :: post) values
                 (true && all_resolved self pre)).2).
    { cbn [write_loop]. rewrite Hnode. unfold value_for. rewrite Hval. cbn [default].
      destruct (write_value _ node _) as [[]|e]; [|cbn; set_solver].
      destruct (write_loop _ _ post _ _). cbn. set_solver. }
    destruct (write_loop _ _ (name :: post) _ _) as [[ok|e] tr]; cbn [fst snd] in *;
      set_solver.
  - intros Hin.
    assert (Hlog : ELog ERROR (NodeNotResolved name) ∈
              (write_loop (client self) (nodes self) (variable_names self) values true).2).
    { destruct (write_loop _ _ (variable_names self) _ _) as [[ok|e] tr];
        cbn [snd] in *; [exact Hin|].
      apply elem_of_app in Hin as [Hin|Hin]; [exact Hin|].
      apply list_elem_of_singleton in Hin. discriminate. }
    apply write_loop_log_unresolved in Hlog. congruence.
Qed.

Lemma write_values_default_zero_witness :
  EWrite "ns=1;i=2" 0 ∈ (write_values accepted_writer voltage_payload).2 ∧
  ELog ERROR (NodeNotResolved "AcCurrentPe") ∉ (write_values accepted_writer voltage_payload).2.
Proof.
  apply (write_values_default_zero accepted_writer voltage_payload
           ["AcVoltagePe"] [] "AcCurrentPe" "ns=1;i=2").
  - reflexivity.
  - reflexivity.
  - reflexivity.
  - constructor; [|constructor]. intros node _. reflexivity.
Defined.

(** Without that proviso the name can be skipped: when the write for
    the name before it raises, a resolved name that has no value is not
    written at all. *)
Lemma write_values_default_skipped :
  ¬ writes_missing_as_zero rejected_writer voltage_payload.
Proof.
  intros Hall.
  assert (Hin : "AcCurrentPe" ∈ variable_names rejected_writer) by (cbn; set_solver).
  specialize (Hall "AcCurrentPe" "ns=1;i=2" Hin eq_refl eq_refl).
  rewrite rejected_write_values in Hall. cbn [snd] in Hall.
  apply elem_of_cons in Hall as [[=]|Hall].
  apply elem_of_cons in Hall as [[=]|Hall].
  apply elem_of_nil in Hall as [].
Qed.

(** ** The retry loop *)

Lemma count_app (p : event → bool) (l1 l2 : list event) :
  count p (l1 ++ l2) = count p l1 + count p l2.
Proof. unfold count. rewrite List.filter_app, length_app. reflexivity. Qed.

Lemma count_quiet (p : event → bool) (tr : list event) :
  (∀ ev, is_quiet_log ev = true → p ev = false) →
  Forall (λ ev, is_quiet_log ev = true) tr → count p tr = 0.
Proof.
  intros Hp Htr. unfold count. induction Htr as [|ev tr Hev _ IH]; [reflexivity|].
  cbn [List.filter]. rewrite (Hp ev Hev). exact IH.
Qed.

Lemma count_join (p : event → bool) (sep : list event) (c : nat)
    (blocks : list (list event)) :
  Forall (λ b, count p b = c) blocks →
  count p (join_with sep blocks) = length blocks * c + (length blocks - 1) * count p sep.
Proof.
  induction 1 as [|b blocks Hb Hblocks IH]; [reflexivity|].
  cbn [join_with]. destruct blocks as [|b' blocks].
  - rewrite Hb. cbn [length]. lia.
  - rewrite !count_app, IH, Hb. cbn [length]. nia.
Qed.

Lemma walk_channel_path_quiet (s : Session) (path : list string) : ∀ cur : Node,
  Forall (λ ev, is_quiet_log ev = true) (walk_channel_path s cur path).2.
Proof.
  induction path as [|segment rest IH]; intros cur; cbn [walk_channel_path].
  - constructor.
  - destruct (_find_child_by_browse_name s cur segment) as [[nxt|]|e]; cbn [snd].
    + apply IH.
    + repeat constructor.
    + constructor.
Qed.

Lemma pick_variables_quiet (s : Session) (cur : Node) (names : list string) :
  ∀ m : gmap string Node,
  Forall (λ ev, is_quiet_log ev = true) (pick_variables s cur names m).2.
Proof.
  induction names as [|name rest IH]; intros m; cbn [pick_variables].
  - constructor.
  - destruct (_find_child_by_browse_name s cur name) as [[node|]|e]; cbn [snd].
    + apply IH.
    + repeat constructor.
    + constructor.
Qed.

Lemma inspect_access_levels_quiet (s : Session) (items : list (string * Node)) :
  Forall (λ ev, is_quiet_log ev = true) (inspect_access_levels s items).2.
Proof.
  induction items as [|[name node] rest IH]; cbn [inspect_access_levels].
  - constructor.
  - destruct (read_attributes s node) as [[al ual]|e]; [|constructor].
    destruct (inspect_access_levels s rest) as [r tr]. cbn [snd] in *.
    constructor; [reflexivity|exact IH].
Qed.

Lemma resolve_nodes_quiet (self : UmatiPrWriter) :
  Forall (λ ev, is_quiet_log ev = true) (resolve_nodes self).2.
Proof.
  unfold resolve_nodes.
  assert (Hw := walk_channel_path_quiet (client self) (channel_path self)
                  (machine_root_id self)).
  destruct (walk_channel_path _ _ _) as [[[cur|]|e] tr]; cbn [snd] in *; try exact Hw.
  assert (Hp := pick_variables_quiet (client self) cur (variable_names self) (nodes self)).
  destruct (pick_variables _ _ _ _) as [[[[|]|e] m] tr']; cbn [snd] in *;
    try (apply Forall_app; split; assumption).
  destruct (verbose self); [|apply Forall_app; split; assumption].
  assert (Hi := inspect_access_levels_quiet (client self)
                  (nodes_items (variable_names self) m)).
  destruct (inspect_access_levels _ _) as [[[]|e] tr'']; cbn [snd] in *;
    rewrite !Forall_app; auto.
Qed.

(** An attempt connects once; everything else it does is quiet logging. *)
Lemma attempt_events (cfg : Config) (w : World) (k : Z) :
  ∃ logs, (attempt cfg w k).2 = EConnect :: logs ∧
          Forall (λ ev, is_quiet_log ev = true) logs.
Proof.
  unfold attempt. destruct (connect w k) as [session|e].
  - destruct (NodeId_from_string w _) as [root|e].
    + assert (Hq := resolve_nodes_quiet
                      (UmatiPrWriter_init session root (cfg_channel_path cfg)
                         (cfg_var_names cfg) (cfg_verbose cfg))).
      destruct (resolve_nodes _) as [[[[|]|e] writer'] tr]; cbn [snd] in *;
        eexists; (split; [reflexivity|]); constructor; auto.
    + eexists. split; [reflexivity|]. repeat constructor.
  - eexists. split; [reflexivity|]. constructor.
Qed.

Lemma failed_attempt_count (p : event → bool) (cfg : Config) (w : World) (k : Z) :
  (∀ ev, is_quiet_log ev = true → p ev = false) →
  count p (failed_attempt_events cfg w k)
  = count p [EConnect] + count p [ELog WARNING
      (ConnectResolveFailed k (retries cfg) (attempt_error cfg w k))] + count p [EDisconnect].
Proof.
  intros Hp. unfold failed_attempt_events.
  destruct (attempt_events cfg w k) as (logs & -> & Hlogs).
  change (EConnect :: logs) with ([EConnect] ++ logs).
  change [ELog WARNING (ConnectResolveFailed k (retries cfg) (attempt_error cfg w k)); EDisconnect]
    with ([ELog WARNING (ConnectResolveFailed k (retries cfg) (attempt_error cfg w k))]
          ++ [EDisconnect]).
  rewrite !count_app, (count_quiet p logs Hp Hlogs). lia.
Qed.

Lemma connect_loop_failed_step (cfg : Config) (w : World) (k : Z) (rest : list Z) :
  attempt_fails cfg w k →
  connect_loop cfg w (k :: rest) =
  if decide (k < retries cfg)%Z then
    ((connect_loop cfg w rest).1,
     failed_attempt_events cfg w k ++ [ESleep (retry_delay cfg)]
     ++ (connect_loop cfg w rest).2)
  else (GaveUp, failed_attempt_events cfg w k).
Proof.
  intros [e He]. cbn [connect_loop]. unfold failed_attempt_events, attempt_error.
  destruct (attempt cfg w k) as [r tr]. cbn [fst snd] in *. subst r.
  destruct (decide _); [|reflexivity].
  destruct (connect_loop cfg w rest) as [o tr']. reflexivity.
Qed.

(** When every attempt fails the loop runs through all of them, sleeping
    after each one but the last, and gives up. *)
Lemma connect_loop_all_fail (cfg : Config) (w : World) (n : nat) : ∀ a : Z,
  (a + Z.of_nat n = retries cfg)%Z →
  (∀ k, (a ≤ k ≤ retries cfg)%Z → attempt_fails cfg w k) →
  connect_loop cfg w (seqZ a (Z.of_nat (S n))) =
  (GaveUp, join_with [ESleep (retry_delay cfg)]
             (failed_attempt_events cfg w <$> seqZ a (Z.of_nat (S n)))).
Proof.
  induction n as [|n IH]; intros a Ha Hfail;
    rewrite seqZ_cons by lia;
    rewrite connect_loop_failed_step by (apply Hfail; lia).
  - rewrite seqZ_nil by lia. rewrite decide_False by lia. reflexivity.
  - replace (Z.pred (Z.of_nat (S (S n)))) with (Z.of_nat (S n)) by lia.
    rewrite (IH (Z.succ a)) by (intros; try apply Hfail; lia).
    rewrite decide_True by lia. cbn [fst snd fmap list_fmap].
    rewrite seqZ_cons by lia. reflexivity.
Qed.

Lemma range_from_1 (n : Z) : range 1 (n + 1) = seqZ 1 n.
Proof. unfold range. f_equal. lia. Qed.

Lemma main_gives_up (w : World) (cfg : Config) :
  config_file w = Some cfg → (1 ≤ retries cfg)%Z →
  (∀ k, (1 ≤ k ≤ retries cfg)%Z → attempt_fails cfg w k) →
  main w = (MainReturns,
            start_events cfg
            ++ join_with [ESleep (retry_delay cfg)]
                 (failed_attempt_events cfg w <$> range 1 (retries cfg + 1))).
Proof.
  intros Hcfg Hn Hfail. unfold main. rewrite Hcfg, range_from_1.
  assert (Heq : seqZ 1 (retries cfg)
                = seqZ 1 (Z.of_nat (S (Z.to_nat (retries cfg - 1))))) by (f_equal; lia).
  rewrite Heq, connect_loop_all_fail by (try assumption; lia). reflexivity.
Qed.

Lemma failed_blocks_count (p : event → bool) (c : nat) (cfg : Config) (w : World)
    (ks : list Z) :
  (∀ ev, is_quiet_log ev = true → p ev = false) →
  (∀ k e, count p [EConnect]
          + count p [ELog WARNING (ConnectResolveFailed k (retries cfg) e)]
          + count p [EDisconnect] = c) →
  Forall (λ b, count p b = c) (failed_attempt_events cfg w <$> ks).
Proof.
  intros Hq Hc. apply Forall_fmap, Forall_forall. intros k _. cbn.
  rewrite failed_attempt_count by assumption. apply Hc.
Qed.

Ltac quiet_events :=
  let ev := fresh "ev" in
  intros ev; destruct ev as [| | | | |[] ?]; cbn; congruence.

(** C4: with an attempt ceiling N ≥ 1 and every attempt failing, [main]
    makes exactly N connection attempts, sleeps the retry delay between
    consecutive attempts and not after the last (N - 1 sleeps), never
    reads the sensor, and returns. *)
Theorem retry_exactly_n_attempts (w : World) (cfg : Config) :
  config_file w = Some cfg → (1 ≤ retries cfg)%Z →
  (∀ k, (1 ≤ k ≤ retries cfg)%Z → attempt_fails cfg w k) →
  ∃ tr, main w = (MainReturns, start_events cfg ++ tr) ∧
    tr = join_with [ESleep (retry_delay cfg)]
           (failed_attempt_events cfg w <$> range 1 (retries cfg + 1)) ∧
    length (range 1 (retries cfg + 1)) = Z.to_nat (retries cfg) ∧
    count is_connect tr = Z.to_nat (retries cfg) ∧
    count is_sleep tr = Z.to_nat (retries cfg) - 1 ∧
    count is_read tr = 0 ∧
    count is_write tr = 0.
Proof.
  intros Hcfg Hn Hfail. eexists. split; [apply main_gives_up; assumption|].
  split; [reflexivity|].
  assert (Hlen : length (failed_attempt_events cfg w <$> range 1 (retries cfg + 1))
                 = Z.to_nat (retries cfg)).
  { rewrite length_fmap, range_from_1, length_seqZ. reflexivity. }
  split; [rewrite range_from_1, length_seqZ; reflexivity|].
  repeat split.
  - rewrite (count_join _ _ 1), Hlen; [cbn; lia|].
    apply failed_blocks_count; [quiet_events|reflexivity].
  - rewrite (count_join _ _ 0), Hlen; [cbn; lia|].
    apply failed_blocks_count; [quiet_events|reflexivity].
  - rewrite (count_join _ _ 0), Hlen; [cbn; lia|].
    apply failed_blocks_count; [quiet_events|reflexivity].
  - rewrite (count_join _ _ 0), Hlen; [cbn; lia|].
    apply failed_blocks_count; [quiet_events|reflexivity].
Qed.

Lemma unreachable_attempt_fails (n : Z) (m : nat) (k : Z) :
  attempt_fails (default_config n) (unreachable_world n m) k.
Proof. exists (Exception "Connection refused"). reflexivity. Qed.

Lemma retry_exactly_n_attempts_witness :
  ∃ tr, main (unreachable_world 3 0) = (MainReturns, start_events (default_config 3) ++ tr) ∧
    count is_connect tr = 3 ∧ count is_sleep tr = 2 ∧ count is_read tr = 0.
Proof.
  destruct (retry_exactly_n_attempts (unreachable_world 3 0) (default_config 3))
    as (tr & Hmain & _ & _ & Hc & Hs & Hr & _).
  - reflexivity.
  - simpl. lia.
  - intros k _. apply unreachable_attempt_fails.
  - exists tr. auto.
Defined.

(** C5: with an attempt ceiling N ≥ 1 and every attempt failing, [main]
    logs one warning per failed attempt and returns normally; the
    process then ends with exit status 0. *)
Theorem exhaustion_exits_zero (w : World) (cfg : Config) :
  config_file w = Some cfg → (1 ≤ retries cfg)%Z →
  (∀ k, (1 ≤ k ≤ retries cfg)%Z → attempt_fails cfg w k) →
  (main w).1 = MainReturns ∧
  exit_status w = 0%Z ∧
  count is_attempt_warning (main w).2 = Z.to_nat (retries cfg) ∧
  count is_read (main w).2 = 0.
Proof.
  intros Hcfg Hn Hfail. unfold exit_status.
  rewrite (main_gives_up w cfg) by assumption. cbn [fst snd].
  assert (Hlen : length (failed_attempt_events cfg w <$> range 1 (retries cfg + 1))
                 = Z.to_nat (retries cfg)).
  { rewrite length_fmap, range_from_1, length_seqZ. reflexivity. }
  repeat split; rewrite count_app.
  - rewrite (count_join _ _ 1), Hlen; [cbn; lia|].
    apply failed_blocks_count; [quiet_events|reflexivity].
  - rewrite (count_join _ _ 0), Hlen; [cbn; lia|].
    apply failed_blocks_count; [quiet_events|reflexivity].
Qed.

Lemma exhaustion_exits_zero_witness :
  exit_status (unreachable_world 3 0) = 0%Z ∧
  count is_attempt_warning (main (unreachable_world 3 0)).2 = 3.
Proof.
  destruct (exhaustion_exits_zero (unreachable_world 3 0) (default_config 3))
    as (_ & Hexit & Hwarn & _).
  - reflexivity.
  - simpl. lia.
  - intros k _. apply unreachable_attempt_fails.
  - split; [exact Hexit|exact Hwarn].
Defined.

(** The exit status is zero although every attempt failed. *)
Lemma exhaustion_exit_status_zero : ¬ exits_nonzero_on_exhaustion (unreachable_world 3 0).
Proof.
  intros H. apply (H (default_config 3)).
  - reflexivity.
  - simpl. lia.
  - intros k _. apply unreachable_attempt_fails.
  - reflexivity.
Qed.

(** ** The sampling loop without a writer *)

Lemma read_keeps_mode (self : PzemNative) (now : float) (io : serial_io) :
  simulate (read self now io).2 = simulate self.
Proof.
  destruct (simulate self) eqn:Hsim.
  - unfold read. rewrite Hsim. destruct (sim_voltage now); [|exact Hsim].
    destruct (sim_current now); exact Hsim.
  - destruct (read_hardware self now io Hsim) as (r & _ & _ & Hkeep). exact Hkeep.
Qed.

Lemma read_returns (self : PzemNative) (now : float) (io : serial_io) :
  simulate self = false ∨ clock_ok now = true →
  ∃ r, (read self now io).1 = Ok r.
Proof.
  intros Hmode. destruct (simulate self) eqn:Hsim.
  - destruct Hmode as [[=]|Hclock].
    destruct (read_simulate self now io Hsim Hclock) as (r & -> & _). eauto.
  - destruct (read_hardware self now io Hsim) as (r & Hr & _). eauto.
Qed.

Lemma cycle_events_no_writer (p : event → bool) (cfg : Config) (r : PzemReading)
    (tick : Z) :
  (∀ lvl msg, p (ELog lvl msg) = false) → (∀ d, p (ESleep d) = false) →
  count p (cycle_events cfg None r tick) = 0.
Proof.
  intros Hlog Hsleep. unfold cycle_events. rewrite !count_app.
  destruct (decide _), (_ && _); unfold count; cbn;
    rewrite ?Hlog, ?Hsleep; reflexivity.
Qed.

Lemma sampling_no_writer (cfg : Config) (w : World) (n : nat) :
  ∀ (pzem : PzemNative) (tick : Z) (i : nat),
  simulate pzem = false ∨ (∀ i, clock_ok (sensor_io w i).1 = true) →
  ∃ tr, sampling cfg w None pzem tick i n = (None, tr) ∧
        count is_read tr = n ∧ count is_write tr = 0 ∧ count is_connect tr = 0.
Proof.
  induction n as [|n IH]; intros pzem tick i Hmode; cbn [sampling].
  - exists []. repeat split.
  - destruct (sensor_io w i) as [now io] eqn:Hio.
    assert (Hread : ∃ r, (read pzem now io).1 = Ok r).
    { apply read_returns. destruct Hmode as [H|H]; [left; exact H|right].
      specialize (H i). rewrite Hio in H. exact H. }
    destruct Hread as [r Hr].
    assert (Hkeep := read_keeps_mode pzem now io).
    destruct (read pzem now io) as [res pzem']. cbn [fst snd] in *. subst res.
    destruct (IH pzem' (tick + 1)%Z (S i)) as (tr & -> & Hreads & Hwrites & Hconn).
    { destruct Hmode as [H|H]; [left; congruence|right; exact H]. }
    eexists. split; [reflexivity|].
    change (ERead (Ok r) :: cycle_events cfg None r (tick + 1) ++ tr)
      with ([ERead (Ok r)] ++ cycle_events cfg None r (tick + 1) ++ tr).
    rewrite !count_app, !cycle_events_no_writer, Hreads, Hwrites, Hconn by reflexivity.
    repeat split.
Qed.

(** C10: with a retry count of 0 or less, [main] makes no connection
    attempt and enters the sampling loop with no writer: every cycle
    reads the sensor and nothing is written to the server. *)
Theorem zero_retries_no_writer (w : World) (cfg : Config) :
  config_file w = Some cfg → (retries cfg ≤ 0)%Z →
  cfg_simulate cfg = false ∨ (∀ i, clock_ok (sensor_io w i).1 = true) →
  connect_loop cfg w (range 1 (retries cfg + 1)) = (Proceed None, []) ∧
  ∃ tr, main w = (MainReturns, tr) ∧
        count is_connect tr = 0 ∧ count is_write tr = 0 ∧
        count is_read tr = cycles w.
Proof.
  intros Hcfg Hn Hmode.
  assert (Hloop : connect_loop cfg w (range 1 (retries cfg + 1)) = (Proceed None, [])).
  { rewrite range_from_1, seqZ_nil by lia. reflexivity. }
  split; [exact Hloop|]. unfold main. rewrite Hcfg, Hloop.
  destruct (sampling_no_writer cfg w (cycles w)
              (PzemNative_init (cfg_device cfg) (cfg_baudrate cfg) (cfg_timeout cfg)
                 (cfg_read_delay cfg) (cfg_simulate cfg)) 0 0 Hmode)
    as (tr & -> & Hreads & Hwrites & Hconn).
  eexists. split; [reflexivity|].
  rewrite !count_app, Hreads, Hwrites, Hconn.
  destruct (is_Ok (final_disconnect w)); repeat split; cbn; lia.
Qed.

Lemma zero_retries_no_writer_witness :
  ∃ tr, main (unreachable_world 0 4) = (MainReturns, tr) ∧
        count is_connect tr = 0 ∧ count is_write tr = 0 ∧ count is_read tr = 4.
Proof.
  destruct (zero_retries_no_writer (unreachable_world 0 4) (default_config 0))
    as (_ & tr & H).
  - reflexivity.
  - simpl. lia.
  - left. reflexivity.
  - exists tr. exact H.
Defined.

(** * Further properties of the script *)

(** ** Browsing by name *)

Lemma find_in_refs_some (s : Session) (name : string) (n : Node) (refs : list Node) :
  find_in_refs s refs name = Ok (Some n) ↔ first_match s refs name n.
Proof.
  unfold first_match. induction refs as [|a refs IH]; cbn [find_in_refs].
  - split; [discriminate|]. intros (pre & post & Heq & _).
    destruct pre; discriminate.
  - destruct (read_browse_name s a) as [qn|e] eqn:Ha; cbn [mbind result_bind].
    + destruct (decide (qn = name)) as [->|Hne].
      * split.
        -- intros [= <-]. exists [], refs. auto.
        -- intros ([|p pre] & post & Heq & Hpre & Hn); injection Heq as <- _;
             [reflexivity|].
           apply Forall_cons in Hpre as [(qn & Hq & Hne) _]. congruence.
      * rewrite IH. split.
        -- intros (pre & post & -> & Hpre & Hn). exists (a :: pre), post.
           repeat split; [|exact Hn]. constructor; [exists qn; auto|exact Hpre].
        -- intros ([|p pre] & post & Heq & Hpre & Hn); injection Heq as <- Heq;
             [congruence|].
           apply Forall_cons in Hpre as [_ Hpre]. exists pre, post. auto.
    + split; [discriminate|].
      intros ([|p pre] & post & Heq & Hpre & Hn); injection Heq as <- _;
        [congruence|].
      apply Forall_cons in Hpre as [(qn & Hq & _) _]. congruence.
Qed.

Lemma find_in_refs_none (s : Session) (name : string) (refs : list Node) :
  find_in_refs s refs name = Ok None ↔ Forall (other_name s name) refs.
Proof.
  induction refs as [|a refs IH]; cbn [find_in_refs].
  - split; [constructor|reflexivity].
  - rewrite Forall_cons. unfold other_name at 1.
    destruct (read_browse_name s a) as [qn|e]; cbn [mbind result_bind].
    + destruct (decide (qn = name)) as [->|Hne].
      * split; [discriminate|]. intros [(qn & [= <-] & Hne) _]. congruence.
      * rewrite IH. split; [intros H; split; [exists qn; auto|exact H]|tauto].
    + split; [discriminate|]. intros [(qn & [=] & _) _].
Qed.

(** X1: [_find_child_by_browse_name] returns a node exactly when the
    children could be listed and that node is the first child whose
    browse name is the requested one, the names of the children before
    it having been read; children after the match are never read. *)
Theorem find_child_returns_first_match (s : Session) (parent n : Node) (name : string) :
  _find_child_by_browse_name s parent name = Ok (Some n) ↔
  ∃ refs, get_children s parent = Ok refs ∧ first_match s refs name n.
Proof.
  unfold _find_child_by_browse_name.
  destruct (get_children s parent) as [refs|e]; cbn [mbind result_bind].
  - rewrite find_in_refs_some. split.
    + intros H. exists refs. auto.
    + intros (refs' & [= <-] & H). exact H.
  - split; [discriminate|]. intros (refs & [=] & _).
Qed.

(** X2: [_find_child_by_browse_name] returns [None] exactly when the
    children could be listed and every child answered with a different
    browse name. *)
Theorem find_child_none_iff (s : Session) (parent : Node) (name : string) :
  _find_child_by_browse_name s parent name = Ok None ↔
  ∃ refs, get_children s parent = Ok refs ∧ Forall (other_name s name) refs.
Proof.
  unfold _find_child_by_browse_name.
  destruct (get_children s parent) as [refs|e]; cbn [mbind result_bind].
  - rewrite find_in_refs_none. split.
    + intros H. exists refs. auto.
    + intros (refs' & [= <-] & H). exact H.
  - split; [discriminate|]. intros (refs & [=] & _).
Qed.

(** ** Walking the channel path *)

Lemma walk_descends (s : Session) (path : list string) : ∀ cur target : Node,
  (walk_channel_path s cur path).1 = Ok (Some target) ↔ descends s cur path target.
Proof.
  induction path as [|segment rest IH]; intros cur target;
    cbn [walk_channel_path descends].
  - cbn. split; [intros [= <-]; reflexivity|intros ->; reflexivity].
  - destruct (_find_child_by_browse_name s cur segment) as [[nxt|]|e]; cbn [fst].
    + rewrite IH. split.
      * intros H. exists nxt. auto.
      * intros (nxt' & [= <-] & H). exact H.
    + split; [discriminate|]. intros (nxt & [=] & _).
    + split; [discriminate|]. intros (nxt & [=] & _).
Qed.

Lemma walk_success_silent (s : Session) (path : list string) : ∀ cur target : Node,
  (walk_channel_path s cur path).1 = Ok (Some target) →
  (walk_channel_path s cur path).2 = [].
Proof.
  induction path as [|segment rest IH]; intros cur target;
    cbn [walk_channel_path]; [reflexivity|].
  destruct (_find_child_by_browse_name s cur segment) as [[nxt|]|e];
    cbn [fst snd]; try discriminate.
  apply IH.
Qed.

Lemma walk_reaches_container_aux (s : Session) (path : list string) (cur target : Node) :
  walk_channel_path s cur path = (Ok (Some target), []) → descends s cur path target.
Proof. intros H. apply walk_descends. rewrite H. reflexivity. Qed.

(** X3: the first loop of [resolve_nodes] ends in a container exactly
    when every segment of the channel path is found, each under the node
    found for the segment before it; it then logs nothing. *)
Theorem walk_reaches_container (s : Session) (path : list string) (cur target : Node) :
  walk_channel_path s cur path = (Ok (Some target), []) ↔ descends s cur path target.
Proof.
  rewrite <- walk_descends. split.
  - intros ->. reflexivity.
  - intros H. assert (Hs := walk_success_silent s path cur target H).
    destruct (walk_channel_path s cur path) as [r tr]. cbn [fst snd] in *.
    congruence.
Qed.

(** X4: the walk returns the early [False] exactly when some segment is
    not among the children of the container reached so far, all segments
    before it having been found; the only log record names that first
    missing segment and the segments after it are not looked up. *)
Theorem walk_reports_first_missing_segment (s : Session) (path : list string) :
  ∀ (cur : Node) (tr : list event),
  walk_channel_path s cur path = (Ok None, tr) ↔
  ∃ pre segment post c,
    path = pre ++ segment :: post ∧ descends s cur pre c ∧
    _find_child_by_browse_name s c segment = Ok None ∧
    tr = [ELog ERROR (BrowseFailed segment)].
Proof.
  induction path as [|seg rest IH]; intros cur tr; cbn [walk_channel_path].
  - split; [discriminate|]. intros ([|? ?] & ? & ? & ? & [=] & _).
  - destruct (_find_child_by_browse_name s cur seg) as [[nxt|]|e] eqn:Hfind.
    + rewrite IH. split.
      * intros (pre & segment & post & c & -> & Hpre & Hc & ->).
        exists (seg :: pre), segment, post, c. repeat split; [|exact Hc].
        cbn [descends]. exists nxt. auto.
      * intros ([|p pre] & segment & post & c & Heq & Hpre & Hc & ->);
          injection Heq as <- Heq.
        -- cbn in Hpre. subst c. congruence.
        -- cbn [descends] in Hpre. destruct Hpre as (nxt' & Hn & Hpre).
           assert (nxt' = nxt) as -> by congruence.
           exists pre, segment, post, c. auto.
    + split.
      * intros [= <-]. exists [], seg, rest, cur. repeat split. exact Hfind.
      * intros ([|p pre] & segment & post & c & Heq & Hpre & Hc & ->);
          injection Heq as <- Heq; [reflexivity|].
        cbn [descends] in Hpre. destruct Hpre as (nxt' & Hn & _). congruence.
    + split; [discriminate|].
      intros ([|p pre] & segment & post & c & Heq & Hpre & Hc & ->);
        injection Heq as <- Heq.
      * cbn in Hpre. subst c. congruence.
      * cbn [descends] in Hpre. destruct Hpre as (nxt' & Hn & _). congruence.
Qed.

(** ** What a successful resolution stores *)

Lemma pick_variables_sound (s : Session) (cur : Node) (names : list string) :
  ∀ (m m' : gmap string Node) (tr : list event),
  pick_variables s cur names m = (Ok true, m', tr) →
  tr = [] ∧
  (∀ name, name ∈ names →
     ∃ node, m' !! name = Some node ∧
             _find_child_by_browse_name s cur name = Ok (Some node)) ∧
  (∀ name, name ∉ names → m' !! name = m !! name).
Proof.
  induction names as [|n rest IH]; intros m m' tr; cbn [pick_variables].
  - intros [= <- <-]. split; [reflexivity|]. split; [|reflexivity].
    intros name []%elem_of_nil.
  - destruct (_find_child_by_browse_name s cur n) as [[node|]|e] eqn:Hfind;
      try discriminate.
    intros (-> & Hin & Hout)%IH. split; [reflexivity|]. split.
    + intros name [->|Hrest]%elem_of_cons; [|apply Hin, Hrest].
      destruct (decide (n ∈ rest)) as [Hn|Hn]; [apply Hin, Hn|].
      exists node. rewrite (Hout n Hn), lookup_insert_eq. auto.
    + intros name [Hne Hrest]%not_elem_of_cons.
      rewrite (Hout name Hrest), lookup_insert_ne; [reflexivity|congruence].
Qed.

Lemma pick_variables_stored (s : Session) (cur : Node) (names : list string) :
  ∀ m : gmap string Node,
  (∀ name, name ∈ names →
     ∃ node, m !! name = Some node ∧
             _find_child_by_browse_name s cur name = Ok (Some node)) →
  pick_variables s cur names m = (Ok true, m, []).
Proof.
  induction names as [|n rest IH]; intros m Hall; cbn [pick_variables]; [reflexivity|].
  destruct (Hall n) as (node & Hm & ->); [left|].
  rewrite insert_id by exact Hm. apply IH.
  intros name Hname. apply Hall. right. exact Hname.
Qed.

Lemma resolve_nodes_true (self self' : UmatiPrWriter) (tr : list event) :
  resolve_nodes self = (Ok true, self', tr) →
  ∃ cur m tr',
    walk_channel_path (client self) (machine_root_id self) (channel_path self)
      = (Ok (Some cur), []) ∧
    pick_variables (client self) cur (variable_names self) (nodes self)
      = (Ok true, m, []) ∧
    self' = set_nodes self m ∧
    (if verbose self
     then inspect_access_levels (client self) (nodes_items (variable_names self) m)
          = (Ok tt, tr')
     else tr' = []) ∧
    tr = tr'.
Proof.
  unfold resolve_nodes.
  destruct (walk_channel_path _ _ _) as [[[cur|]|e] tr1] eqn:Hwalk; try discriminate.
  assert (tr1 = []) as ->.
  { apply (f_equal snd) in Hwalk as Hs. cbn in Hs. rewrite <- Hs.
    eapply walk_success_silent. rewrite Hwalk. reflexivity. }
  destruct (pick_variables _ cur _ _) as [[[[|]|e] m] tr2] eqn:Hpick; try discriminate.
  destruct (pick_variables_sound _ _ _ _ _ _ Hpick) as (-> & _).
  destruct (verbose self).
  - destruct (inspect_access_levels _ _) as [[[]|e] tr3] eqn:Hins; try discriminate.
    intros [= <- <-]. exists cur, m, tr3. auto.
  - intros [= <- <-]. exists cur, m, []. auto.
Qed.

(** X5: when [resolve_nodes] returns true, every requested name is
    mapped to the child that carries this browse name under the
    container reached by the channel path from the machine root; entries
    under other names and all other fields of the writer are left as
    they were. *)
Theorem resolve_nodes_sound (self self' : UmatiPrWriter) (tr : list event) :
  resolve_nodes self = (Ok true, self', tr) →
  ∃ cur,
    descends (client self) (machine_root_id self) (channel_path self) cur ∧
    (∀ name, name ∈ variable_names self →
       ∃ node, nodes self' !! name = Some node ∧
               _find_child_by_browse_name (client self) cur name = Ok (Some node)) ∧
    (∀ name, name ∉ variable_names self → nodes self' !! name = nodes self !! name) ∧
    self' = set_nodes self (nodes self').
Proof.
  intros (cur & m & tr' & Hwalk & Hpick & -> & _)%resolve_nodes_true.
  exists cur. cbn [nodes set_nodes].
  apply pick_variables_sound in Hpick as (_ & Hin & Hout).
  split; [apply walk_reaches_container_aux, Hwalk|]. auto.
Qed.

Lemma resolve_nodes_sound_witness :
  ∃ cur,
    descends main_channel_session "ns=1;i=74000" ["Main"] cur ∧
    (∀ name, name ∈ ["AcVoltagePe"; "AcCurrentPe"] →
       ∃ node,
         (<["AcCurrentPe" := "ns=1;i=2"]> (<["AcVoltagePe" := "ns=1;i=1"]> ∅)
            : gmap string string) !! name = Some node ∧
         _find_child_by_browse_name main_channel_session cur name = Ok (Some node)) ∧
    (∀ name, name ∉ ["AcVoltagePe"; "AcCurrentPe"] →
       (<["AcCurrentPe" := "ns=1;i=2"]> (<["AcVoltagePe" := "ns=1;i=1"]> ∅)
          : gmap string string) !! name = (∅ : gmap string string) !! name).
Proof.
  destruct (resolve_nodes_sound main_channel_writer
              (set_nodes main_channel_writer
                 (<["AcCurrentPe" := "ns=1;i=2"]> (<["AcVoltagePe" := "ns=1;i=1"]> ∅)))
              []) as (cur & Hd & Hin & Hout & _).
  - reflexivity.
  - exists cur. auto.
Defined.

(** X6: resolution is idempotent: when [resolve_nodes] has returned
    true, calling it again on the resulting writer (the server answering
    as before) returns true again and leaves the writer as it is. *)
Theorem resolve_nodes_idempotent (self self' : UmatiPrWriter) (tr : list event) :
  resolve_nodes self = (Ok true, self', tr) →
  resolve_nodes self' = (Ok true, self', tr).
Proof.
  intros (cur & m & tr' & Hwalk & Hpick & -> & Hverbose & ->)%resolve_nodes_true.
  apply pick_variables_sound in Hpick as (_ & Hin & _).
  unfold resolve_nodes. cbn [client machine_root_id channel_path variable_names
                              verbose nodes set_nodes].
  rewrite Hwalk, (pick_variables_stored _ _ _ m Hin).
  destruct (verbose self).
  - rewrite Hverbose. reflexivity.
  - subst tr'. reflexivity.
Qed.

Lemma resolve_nodes_idempotent_witness :
  resolve_nodes
    (set_nodes main_channel_writer
       (<["AcCurrentPe" := "ns=1;i=2"]> (<["AcVoltagePe" := "ns=1;i=1"]> ∅)))
  = (Ok true,
     set_nodes main_channel_writer
       (<["AcCurrentPe" := "ns=1;i=2"]> (<["AcVoltagePe" := "ns=1;i=1"]> ∅)),
     []).
Proof.
  apply (resolve_nodes_idempotent main_channel_writer). reflexivity.
Defined.

(** ** What [write_values] writes *)

Lemma write_loop_only_resolved (self : UmatiPrWriter) (values : gmap string float)
    (node : Node) (v : float) (names : list string) : ∀ ok : bool,
  EWrite node v ∈ (write_loop (client self) (nodes self) names values ok).2 →
  ∃ name, name ∈ names ∧ nodes self !! name = Some node ∧ v = value_for values name.
Proof.
  induction names as [|n rest IH]; intros ok; cbn [write_loop].
  - intros []%elem_of_nil.
  - destruct (nodes self !! n) as [node'|] eqn:Hnode.
    + assert (Hhere : EWrite node v = EWrite node' (value_for values n) →
                ∃ name, name ∈ n :: rest ∧ nodes self !! name = Some node ∧
                        v = value_for values name).
      { intros [= -> ->]. exists n. split; [left|auto]. }
      destruct (write_value _ node' _) as [[]|e].
      * specialize (IH ok). destruct (write_loop _ _ rest values ok) as [r tr].
        cbn [snd] in *. intros [Heq|Hin]%elem_of_cons; [auto|].
        destruct (IH Hin) as (name & Hname & H). exists name. split; [right|]; auto.
      * cbn [snd]. intros [Heq|[]%elem_of_nil]%elem_of_cons. auto.
    + specialize (IH false). destruct (write_loop _ _ rest values false) as [r tr].
      cbn [snd] in *. intros [[=]|Hin]%elem_of_cons.
      destruct (IH Hin) as (name & Hname & H). exists name. split; [right|]; auto.
Qed.

(** X7: every write issued by [write_values] goes to the node stored for
    a name of the variable-name list and carries the value given for
    that name (0.0 when none is given); nothing else is ever written. *)
Theorem write_values_only_resolved (self : UmatiPrWriter) (values : gmap string float)
    (node : Node) (v : float) :
  EWrite node v ∈ (write_values self values).2 →
  ∃ name, name ∈ variable_names self ∧ nodes self !! name = Some node ∧
          v = value_for values name.
Proof.
  rewrite write_values_unfold. intros Hin.
  apply (write_loop_only_resolved self values node v (variable_names self) true).
  destruct (write_loop _ _ _ _ _) as [[ok|e] tr]; cbn [snd] in *; [exact Hin|].
  apply elem_of_app in Hin as [Hin|Hin]; [exact Hin|].
  apply list_elem_of_singleton in Hin. discriminate.
Qed.

Lemma write_values_only_resolved_witness :
  ∃ name, name ∈ variable_names accepted_writer ∧
          nodes accepted_writer !! name = Some "ns=1;i=2" ∧
          0%float = value_for voltage_payload name.
Proof.
  apply (write_values_only_resolved accepted_writer voltage_payload "ns=1;i=2" 0).
  vm_compute. repeat constructor.
Defined.

Lemma count_cons (p : event → bool) (ev : event) (tr : list event) :
  count p (ev :: tr) = (if p ev then 1 else 0) + count p tr.
Proof. unfold count. cbn [List.filter]. destruct (p ev); reflexivity. Qed.

Lemma write_loop_counts (self : UmatiPrWriter) (values : gmap string float)
    (names : list string) : ∀ ok : bool,
  count is_write (write_loop (client self) (nodes self) names values ok).2
  + count is_unresolved_log (write_loop (client self) (nodes self) names values ok).2
  ≤ length names.
Proof.
  induction names as [|n rest IH]; intros ok; cbn [write_loop length]; [cbn; lia|].
  destruct (nodes self !! n) as [node|].
  - destruct (write_value _ node _) as [[]|e].
    + specialize (IH ok). destruct (write_loop _ _ rest values ok) as [r tr].
      cbn [snd] in *. rewrite !count_cons. cbn. lia.
    + cbn. lia.
  - specialize (IH false). destruct (write_loop _ _ rest values false) as [r tr].
    cbn [snd] in *. rewrite !count_cons. cbn. lia.
Qed.

Lemma write_loop_true_counts (self : UmatiPrWriter) (values : gmap string float)
    (names : list string) : ∀ (ok : bool) (tr : list event),
  write_loop (client self) (nodes self) names values ok = (Ok true, tr) →
  count is_write tr = length names ∧ Forall (λ ev, is_write ev = true) tr.
Proof.
  induction names as [|n rest IH]; intros ok tr; cbn [write_loop length].
  - intros [= _ <-]. split; [reflexivity|constructor].
  - destruct (nodes self !! n) as [node|].
    + destruct (write_value _ node _) as [[]|e]; [|discriminate].
      destruct (write_loop _ _ rest values ok) as [r tr'] eqn:Hrest.
      intros [= -> <-]. destruct (IH _ _ Hrest) as [Hc Hall].
      rewrite count_cons, Hc. split; [reflexivity|]. constructor; [reflexivity|exact Hall].
    + destruct (write_loop _ _ rest values false) as [r tr'] eqn:Hrest.
      intros [= -> _]. apply write_loop_true in Hrest as [[=] _].
Qed.

(** X8: [write_values] handles each name of the list at most once: the
    writes and the "not resolved" records together never outnumber the
    names; when it returns true it has issued exactly one write per name
    and logged nothing. *)
Theorem write_values_one_item_per_name (self : UmatiPrWriter)
    (values : gmap string float) :
  count is_write (write_values self values).2
  + count is_unresolved_log (write_values self values).2
  ≤ length (variable_names self) ∧
  ((write_values self values).1 = true →
   count is_write (write_values self values).2 = length (variable_names self) ∧
   Forall (λ ev, is_write ev = true) (write_values self values).2).
Proof.
  rewrite write_values_unfold.
  assert (Hc := write_loop_counts self values (variable_names self) true).
  assert (Ht := write_loop_true_counts self values (variable_names self) true).
  destruct (write_loop _ _ _ _ _) as [[ok|e] tr]; cbn [fst snd] in *.
  - split; [exact Hc|]. intros ->. apply Ht. reflexivity.
  - rewrite !count_app. cbn. split; [lia|discriminate].
Qed.

(** ** One cycle of the sampling loop *)

(** X9: the payload of a cycle gives each of the four payload names the
    corresponding measurement multiplied by its scale; every other name
    has no entry and is therefore written as 0.0. *)
Theorem payload_value_for (cfg : Config) (r : PzemReading) (name : string) :
  value_for (payload cfg r) name =
  if decide (name = "AcVoltagePe") then (voltage r * v_scale cfg)%float
  else if decide (name = "AcCurrentPe") then (current r * i_scale cfg)%float
  else if decide (name = "AcActivePowerPe") then (power r * p_scale cfg)%float
  else if decide (name = "AcActiveEnergyTotalImportHp")
       then (energy r * e_scale cfg)%float
  else 0%float.
Proof.
  unfold value_for, payload.
  destruct (decide (name = "AcVoltagePe")) as [->|H1]; [reflexivity|].
  rewrite lookup_insert_ne by congruence.
  destruct (decide (name = "AcCurrentPe")) as [->|H2]; [reflexivity|].
  rewrite lookup_insert_ne by congruence.
  destruct (decide (name = "AcActivePowerPe")) as [->|H3]; [reflexivity|].
  rewrite lookup_insert_ne by congruence.
  destruct (decide (name = "AcActiveEnergyTotalImportHp")) as [->|H4]; [reflexivity|].
  rewrite lookup_insert_ne by congruence.
  rewrite lookup_empty. reflexivity.
Qed.

(** X10: with the four default variable names resolved and the server
    accepting the writes, one cycle on a reading with status OK or SIM
    writes voltage, current, power and energy, each multiplied by its
    scale, in this order, and then sleeps the sample interval. *)
Theorem cycle_writes_scaled_measurements (cfg : Config) (wr : UmatiPrWriter)
    (r : PzemReading) (tick : Z) (n1 n2 n3 n4 : Node) :
  variable_names wr = payload_names →
  nodes wr !! "AcVoltagePe" = Some n1 →
  nodes wr !! "AcCurrentPe" = Some n2 →
  nodes wr !! "AcActivePowerPe" = Some n3 →
  nodes wr !! "AcActiveEnergyTotalImportHp" = Some n4 →
  (∀ node v, write_value (client wr) node v = Ok tt) →
  status r = "OK" ∨ status r = "SIM" →
  cfg_log_values cfg = false →
  cycle_events cfg (Some wr) r tick =
  [EWrite n1 (voltage r * v_scale cfg); EWrite n2 (current r * i_scale cfg);
   EWrite n3 (power r * p_scale cfg); EWrite n4 (energy r * e_scale cfg);
   ESleep (sample cfg)].
Proof.
  intros Hnames H1 H2 H3 H4 Hwrite Hstatus Hlog.
  unfold cycle_events, write_values. rewrite decide_True by exact Hstatus.
  rewrite Hnames, Hlog. unfold payload_names. cbn [write_loop andb].
  rewrite H1, H2, H3, H4, !Hwrite. reflexivity.
Qed.

Lemma cycle_writes_scaled_measurements_witness :
  cycle_events (default_config 5) (Some four_writer) ok_reading 1 =
  [EWrite "ns=1;i=1" (230.0 * 1.0); EWrite "ns=1;i=2" (0.150 * 1.0);
   EWrite "ns=1;i=3" (34.5 * 1.0); EWrite "ns=1;i=4" (1234.0 * 1.0);
   ESleep 5.0].
Proof.
  apply (cycle_writes_scaled_measurements (default_config 5) four_writer ok_reading 1
           "ns=1;i=1" "ns=1;i=2" "ns=1;i=3" "ns=1;i=4");
    try reflexivity.
  left. reflexivity.
Defined.

(** ** Reading a frame from the device *)

Lemma byte_at_take (buf : list byte) (n i : nat) :
  i < n → byte_at (take n buf) i = byte_at buf i.
Proof.
  intros Hi. unfold byte_at. f_equal.
  revert n i Hi. induction buf as [|b buf IH]; intros n i Hi.
  - rewrite take_nil. reflexivity.
  - destruct n as [|n]; [lia|]. destruct i as [|i]; cbn; [reflexivity|].
    apply IH. lia.
Qed.

(** X11: on the hardware path, when [read_delay] is a delay that
    [time.sleep] accepts (a number, not negative, below 2^63 ns), no call
    of the round trip raises and the device delivers at least 25 bytes,
    [read] returns the reading decoded from the first 25 of them, with
    status OK, and stores its energy in [_last_energy]; bytes beyond the
    25th are never read. *)
Theorem read_hardware_frame (self : PzemNative) (now : float) (avail : list byte) :
  simulate self = false → time_sleep (read_delay self) = Ok tt →
  25 ≤ length avail →
  read self now (Responds avail (Ok tt)) =
  (Ok {| voltage := (float_of_int (field2 avail 3) / 10.0)%float;
         current := (float_of_int (field3 avail 5) / 1000.0)%float;
         power := (float_of_int (field3 avail 9) / 10.0)%float;
         energy := float_of_int (field3 avail 13);
         status := "OK" |},
   set_last_energy self (float_of_int (field3 avail 13))).
Proof.
  intros Hsim Hdelay Hlen. unfold read, serial_round_trip.
  rewrite Hsim, Hdelay. cbn [mbind result_bind serial_close].
  rewrite decode_response_long by (rewrite length_take; lia).
  unfold field2, field3. rewrite !byte_at_take by lia. reflexivity.
Qed.

Lemma read_hardware_frame_witness :
  read hardware_sensor 0 (Responds (fixture_frame ++ [xff; xff]) (Ok tt)) =
  (Ok {| voltage := (float_of_int (field2 (fixture_frame ++ [xff; xff]) 3) / 10.0)%float;
         current := (float_of_int (field3 (fixture_frame ++ [xff; xff]) 5) / 1000.0)%float;
         power := (float_of_int (field3 (fixture_frame ++ [xff; xff]) 9) / 10.0)%float;
         energy := float_of_int (field3 (fixture_frame ++ [xff; xff]) 13);
         status := "OK" |},
   set_last_energy hardware_sensor
     (float_of_int (field3 (fixture_frame ++ [xff; xff]) 13))).
Proof.
  apply (read_hardware_frame hardware_sensor 0 (fixture_frame ++ [xff; xff])).
  - reflexivity.
  - reflexivity.
  - simpl. lia.
Defined.

(** X12: [read] changes nothing of the sensor object but
    [_last_energy]; whenever it returns a reading with status OK or SIM,
    [_last_energy] holds the energy of that reading, and when it raises
    the object is unchanged. *)
Theorem read_updates_only_last_energy (self : PzemNative) (now : float)
    (io : serial_io) :
  device (read self now io).2 = device self ∧
  baudrate (read self now io).2 = baudrate self ∧
  timeout (read self now io).2 = timeout self ∧
  read_delay (read self now io).2 = read_delay self ∧
  simulate (read self now io).2 = simulate self ∧
  (∀ r, (read self now io).1 = Ok r → status r = "OK" ∨ status r = "SIM" →
        _last_energy (read self now io).2 = energy r) ∧
  (∀ e, (read self now io).1 = Raise e → (read self now io).2 = self).
Proof.
  unfold read. destruct (simulate self) eqn:Hsim.
  - destruct (sim_voltage now) as [v|e]; [|repeat split; auto; discriminate].
    destruct (sim_current now) as [c|e]; [|repeat split; auto; discriminate].
    cbn. repeat split; auto; [|discriminate]. intros r [= <-] _. reflexivity.
  - destruct (serial_round_trip self io) as [resp|e].
      destruct (_decode_response resp) as [rd|], (serial_close io) as [[]|e];
        cbn; repeat split; auto; try discriminate; intros r [= <-] [H|H];
        try reflexivity; cbn in H; try discriminate.
    + destruct (serial_close io) as [[]|e']; cbn; repeat split; auto;
        try discriminate; intros r [= <-] [H|H]; cbn in H; discriminate.
Qed.

(** X13: the decoder looks only at the bytes at offsets 3-7, 9-11 and
    13-15: two buffers of at least 25 bytes that agree there decode to
    the same reading, so the device address, the function code, the
    byte count and the checksum are never checked. *)
Theorem decode_reads_only_measurement_bytes (b1 b2 : list byte) :
  25 ≤ length b1 → 25 ≤ length b2 →
  (∀ i, i ∈ measurement_offsets → nth i b1 x00 = nth i b2 x00) →
  _decode_response b1 = _decode_response b2.
Proof.
  intros H1 H2 Hsame. rewrite !decode_response_long by assumption.
  assert (Hb : ∀ i, i ∈ measurement_offsets → byte_at b1 i = byte_at b2 i).
  { intros i Hi. unfold byte_at. rewrite (Hsame i Hi). reflexivity. }
  unfold field2, field3. cbn [Nat.add].
  rewrite !(Hb 3), !(Hb 4), !(Hb 5), !(Hb 6), !(Hb 7), !(Hb 9), !(Hb 10),
    !(Hb 11), !(Hb 13), !(Hb 14), !(Hb 15)
    by (unfold measurement_offsets; set_solver).
  reflexivity.
Qed.

Lemma decode_reads_only_measurement_bytes_witness :
  _decode_response fixture_frame = _decode_response garbled_frame.
Proof.
  apply (decode_reads_only_measurement_bytes fixture_frame garbled_frame).
  - simpl. lia.
  - simpl. lia.
  - intros i Hi. unfold measurement_offsets in Hi.
    repeat (apply elem_of_cons in Hi as [->|Hi]; [reflexivity|]).
    apply elem_of_nil in Hi as [].
Defined.

(** ** Conversions between integers and binary64 numbers *)

Module Binary64Exact.
Import Binary64.
Section Conversion.
Local Open Scope Z_scope.

Lemma float_of_int_SF (z : Z) :
  0 <= z < 2 ^ 63 →
  Prim2SF (float_of_int z) = binary_normalize prec emax z 0 false.
Proof.
  intros Hz. unfold float_of_int.
  rewrite <- (Z.mod_small z Uint63.wB) by (change Uint63.wB with (2 ^ 63); lia).
  rewrite <- Uint63.of_Z_spec, <- of_uint63_spec, SF2Prim_Prim2SF. reflexivity.
Qed.

Lemma shl_align_snd mx ex ez : ez <= ex → snd (shl_align mx ex ez) = ez.
Proof.
  intros Hle. unfold shl_align.
  destruct (ez - ex) as [|d|d] eqn:Ed; cbn [snd]; lia.
Qed.

Lemma shr_no_shift r e n : n <= 0 → shr r e n = (r, e).
Proof. destruct n; try reflexivity; lia. Qed.

(** An integer of at most 53 bits is converted exactly. *)
Lemma binary_normalize_exact (p : positive) :
  Z.pos p < 2 ^ 53 →
  binary_normalize prec emax (Z.pos p) 0 false =
  S754_finite false (fst (shl_align p 0 (Z.pos (digits2_pos p) - 53)))
    (Z.pos (digits2_pos p) - 53).
Proof.
  intros Hp. cbn [binary_normalize]. unfold binary_round.
  assert (Hd : 1 <= Z.pos (digits2_pos p) <= 53).
  { rewrite digits2_pos_log2. assert (0 <= Z.log2 (Z.pos p)) by apply Z.log2_nonneg.
    assert (Z.log2 (Z.pos p) < 53) by (apply Z.log2_lt_pow2; lia). lia. }
  set (d := Z.pos (digits2_pos p)) in *.
  assert (Hf : fexp prec emax (d + 0) = d - 53) by (unfold fexp, SpecFloat.emin, prec, emax; lia).
  rewrite Hf.
  assert (Hfst := shl_align_fst p 0 (d - 53) ltac:(lia)).
  assert (Hsnd := shl_align_snd p 0 (d - 53) ltac:(lia)).
  destruct (shl_align p 0 (d - 53)) as [mz ez]. cbn [fst snd] in *. subst ez.
  assert (Hdz : Zdigits2 (Z.pos mz) = 53).
  { rewrite Zdigits2_log2, Hfst by lia.
    rewrite Z.log2_mul_pow2 by lia. unfold d. rewrite digits2_pos_log2. lia. }
  unfold binary_round_aux, shr_fexp. rewrite Hdz.
  assert (Hf2 : fexp prec emax (53 + (d - 53)) - (d - 53) = 0)
    by (unfold fexp, SpecFloat.emin, prec, emax; lia).
  rewrite Hf2. cbn [shr_record_of_loc shr shr_m loc_of_shr_record round_nearest_even].
  rewrite Hdz, Hf2. cbn [shr shr_m shr_record_of_loc].
  replace (d - 53 <=? emax - prec) with true
    by (symmetry; apply Z.leb_le; unfold emax, prec; lia).
  reflexivity.
Qed.

Lemma int_of_float_of_int (z : Z) :
  0 <= z < 2 ^ 53 → int_of_float (float_of_int z) = Ok z.
Proof.
  intros Hz. unfold int_of_float.
  rewrite float_of_int_SF by (split; [lia|]; apply Z.lt_trans with (2 ^ 53); [lia|reflexivity]).
  destruct z as [|p|p]; [reflexivity| |lia].
  rewrite binary_normalize_exact by lia.
  assert (Hd : 1 <= Z.pos (digits2_pos p) <= 53).
  { rewrite digits2_pos_log2. assert (0 <= Z.log2 (Z.pos p)) by apply Z.log2_nonneg.
    assert (Z.log2 (Z.pos p) < 53) by (apply Z.log2_lt_pow2; lia). lia. }
  cbn beta iota zeta. f_equal.
  rewrite shl_align_fst by lia.
  rewrite Z.shiftl_div_pow2 by lia.
  replace (0 - (Z.pos (digits2_pos p) - 53)) with (- (Z.pos (digits2_pos p) - 53)) by lia.
  apply Z.div_mul. apply Z.pow_nonzero; lia.
Qed.

Lemma shr_m_nonneg r e n : 0 <= shr_m r → 0 <= shr_m (fst (shr r e n)).
Proof.
  intros Hr. destruct n as [|p|p]; cbn [shr fst]; try exact Hr.
  rewrite iter_shr_1_m by exact Hr. apply Z.div_pos; lia.
Qed.

Lemma shr_record_of_loc_m m l : shr_m (shr_record_of_loc m l) = m.
Proof. destruct l as [|[| |]]; reflexivity. Qed.

(** Rounding a non-negative mantissa gives a non-negative number. *)
Lemma binary_round_aux_nonneg m e l :
  0 <= m → SFnonneg (binary_round_aux prec emax false m e l).
Proof.
  intros Hm. unfold binary_round_aux, shr_fexp.
  assert (H1 := shr_m_nonneg (shr_record_of_loc m l) e
                  (fexp prec emax (Zdigits2 m + e) - e)).
  rewrite shr_record_of_loc_m in H1. specialize (H1 Hm).
  destruct (shr (shr_record_of_loc m l) e _) as [r1 e1]. cbn [fst] in H1.
  set (mr := round_nearest_even (shr_m r1) (loc_of_shr_record r1)).
  assert (Hmr : 0 <= mr).
  { pose proof (round_nearest_even_ge (shr_m r1) (loc_of_shr_record r1)). lia. }
  assert (H2 := shr_m_nonneg (shr_record_of_loc mr loc_Exact) e1
                  (fexp prec emax (Zdigits2 mr + e1) - e1) Hmr).
  destruct (shr (shr_record_of_loc mr loc_Exact) e1 _) as [r2 e2]. cbn [fst] in H2.
  destruct (shr_m r2) as [|m2|m2]; [exact I| |lia].
  destruct (e2 <=? emax - prec); exact I.
Qed.

Lemma binary_normalize_nonneg z :
  0 <= z → SFnonneg (binary_normalize prec emax z 0 false).
Proof.
  intros Hz. destruct z as [|p|p]; [exact I| |lia].
  cbn [binary_normalize]. unfold binary_round.
  destruct (shl_align p 0 _) as [mz ez]. apply binary_round_aux_nonneg. lia.
Qed.

Lemma SFdiv_nonneg x y :
  SFnonneg x → (∃ m e, y = S754_finite false m e) → SFnonneg (SF64div x y).
Proof.
  intros Hx (my & ey & ->).
  destruct x as [[|]|[|]| |[|] mx ex]; try contradiction; try exact I.
  unfold SF64div, SFdiv, SFdiv_core_binary. cbn [xorb].
  set (m' := match _ - _ with Z.pos _ => _ | _ => _ end).
  assert (Hm' : 0 <= m').
  { subst m'. destruct (_ - _); [lia|apply Z.shiftl_nonneg; lia|lia]. }
  assert (Hq := Z.div_pos m' (Z.pos my) Hm' ltac:(lia)).
  unfold Z.div in Hq. destruct (Z.div_eucl m' (Z.pos my)) as [q r].
  apply binary_round_aux_nonneg. exact Hq.
Qed.

Local Open Scope float_scope.

Lemma SFnonneg_leb (x : float) : SFnonneg (Prim2SF x) → (0 <=? x) = true.
Proof.
  rewrite leb_spec. change (Prim2SF 0) with (S754_zero false).
  destruct (Prim2SF x) as [[|]|[|]| |[|] m e]; try contradiction; reflexivity.
Qed.

Lemma float_of_int_nonneg (z : Z) :
  (0 <= z < 2 ^ 63)%Z → SFnonneg (Prim2SF (float_of_int z)).
Proof.
  intros Hz. rewrite float_of_int_SF by exact Hz. apply binary_normalize_nonneg. lia.
Qed.

Lemma scaled_nonneg (z : Z) (d : float) :
  (0 <= z < 2 ^ 63)%Z → (∃ m e, Prim2SF d = S754_finite false m e) →
  (0 <=? float_of_int z / d) = true.
Proof.
  intros Hz Hd. apply SFnonneg_leb. rewrite div_spec.
  apply SFdiv_nonneg; [apply float_of_int_nonneg, Hz|exact Hd].
Qed.
End Conversion.
End Binary64Exact.

(** ** Decoded measurements *)

Lemma byte_val_range (b : byte) : (0 ≤ byte_val b < 256)%Z.
Proof. unfold byte_val. pose proof (Byte.to_N_bounded b). lia. Qed.

Lemma field2_range (buf : list byte) (i : nat) : (0 ≤ field2 buf i < 2 ^ 16)%Z.
Proof.
  unfold field2, byte_at.
  pose proof (byte_val_range (nth i buf x00)).
  pose proof (byte_val_range (nth (i + 1) buf x00)). lia.
Qed.

Lemma field3_range (buf : list byte) (i : nat) : (0 ≤ field3 buf i < 2 ^ 24)%Z.
Proof.
  unfold field3, byte_at.
  pose proof (byte_val_range (nth i buf x00)).
  pose proof (byte_val_range (nth (i + 1) buf x00)).
  pose proof (byte_val_range (nth (i + 2) buf x00)). lia.
Qed.

(** X14: every reading decoded from a frame has a voltage, a current, a
    power and an energy that are greater than or equal to zero; the
    decoder never produces a negative number or a NaN. *)
Theorem decode_measurements_nonneg (buf : list byte) :
  25 ≤ length buf →
  ∃ r, _decode_response buf = Some r ∧
       (0 <=? voltage r)%float = true ∧ (0 <=? current r)%float = true ∧
       (0 <=? power r)%float = true ∧ (0 <=? energy r)%float = true.
Proof.
  intros Hlen. eexists. split; [apply decode_response_long, Hlen|].
  cbn [voltage current power energy].
  pose proof (field2_range buf 3). pose proof (field3_range buf 5).
  pose proof (field3_range buf 9). pose proof (field3_range buf 13).
  repeat split.
  - apply Binary64Exact.scaled_nonneg; [lia|vm_compute; eauto].
  - apply Binary64Exact.scaled_nonneg; [lia|vm_compute; eauto].
  - apply Binary64Exact.scaled_nonneg; [lia|vm_compute; eauto].
  - apply Binary64Exact.SFnonneg_leb, Binary64Exact.float_of_int_nonneg. lia.
Qed.

Lemma decode_measurements_nonneg_witness :
  ∃ r, _decode_response garbled_frame = Some r ∧
       (0 <=? voltage r)%float = true ∧ (0 <=? current r)%float = true ∧
       (0 <=? power r)%float = true ∧ (0 <=? energy r)%float = true.
Proof.
  apply (decode_measurements_nonneg garbled_frame). simpl. lia.
Defined.

(** X15: the decoded energy is the 3-byte field at offset 13 itself, a
    whole number of watt-hours below 2^24, converted to a float without
    loss: [int(energy)] gives the field back. *)
Theorem decode_energy_exact (buf : list byte) :
  25 ≤ length buf →
  ∃ r, _decode_response buf = Some r ∧
       int_of_float (energy r) = Ok (field3 buf 13) ∧
       (0 ≤ field3 buf 13 < 2 ^ 24)%Z.
Proof.
  intros Hlen. eexists. split; [apply decode_response_long, Hlen|].
  cbn [energy]. pose proof (field3_range buf 13) as Hr. split; [|exact Hr].
  apply Binary64Exact.int_of_float_of_int. lia.
Qed.

Lemma decode_energy_exact_witness :
  ∃ r, _decode_response fixture_frame = Some r ∧
       int_of_float (energy r) = Ok (field3 fixture_frame 13) ∧
       (0 ≤ field3 fixture_frame 13 < 2 ^ 24)%Z.
Proof.
  apply (decode_energy_exact fixture_frame). simpl. lia.
Defined.

(** ** Shapes of the traces *)

Lemma count_nil (p : event → bool) : count p [] = 0.
Proof. reflexivity. Qed.

Lemma count_none (p q : event → bool) (tr : list event) :
  (∀ ev, q ev = true → p ev = false) →
  Forall (λ ev, q ev = true) tr → count p tr = 0.
Proof.
  intros Hp Htr. unfold count. induction Htr as [|ev tr Hev _ IH]; [reflexivity|].
  cbn [List.filter]. rewrite (Hp ev Hev). exact IH.
Qed.

Lemma count_zero_Forall (p : event → bool) (tr : list event) :
  count p tr = 0 ↔ Forall (λ ev, p ev = false) tr.
Proof.
  induction tr as [|ev tr IH]; [split; [constructor|reflexivity]|].
  rewrite count_cons, Forall_cons, <- IH. destruct (p ev).
  - split; [lia|]. intros [[=] _].
  - split; [intros H; split; [reflexivity|lia]|]. intros [_ H]. lia.
Qed.

Lemma walk_channel_path_logs (s : Session) (path : list string) : ∀ cur : Node,
  Forall (λ ev, is_resolve_log ev = true) (walk_channel_path s cur path).2.
Proof.
  induction path as [|segment rest IH]; intros cur; cbn [walk_channel_path].
  - constructor.
  - destruct (_find_child_by_browse_name s cur segment) as [[nxt|]|e]; cbn [snd].
    + apply IH.
    + repeat constructor.
    + constructor.
Qed.

Lemma pick_variables_logs (s : Session) (cur : Node) (names : list string) :
  ∀ m : gmap string Node,
  Forall (λ ev, is_resolve_log ev = true) (pick_variables s cur names m).2.
Proof.
  induction names as [|name rest IH]; intros m; cbn [pick_variables].
  - constructor.
  - destruct (_find_child_by_browse_name s cur name) as [[node|]|e]; cbn [snd].
    + apply IH.
    + repeat constructor.
    + constructor.
Qed.

Lemma inspect_access_levels_logs (s : Session) (items : list (string * Node)) :
  Forall (λ ev, is_resolve_log ev = true) (inspect_access_levels s items).2.
Proof.
  induction items as [|[name node] rest IH]; cbn [inspect_access_levels].
  - constructor.
  - destruct (read_attributes s node) as [[al ual]|e]; [|constructor].
    destruct (inspect_access_levels s rest) as [r tr]. cbn [snd] in *.
    constructor; [reflexivity|exact IH].
Qed.

Lemma resolve_nodes_logs (self : UmatiPrWriter) :
  Forall (λ ev, is_resolve_log ev = true) (resolve_nodes self).2.
Proof.
  unfold resolve_nodes.
  assert (Hw := walk_channel_path_logs (client self) (channel_path self)
                  (machine_root_id self)).
  destruct (walk_channel_path _ _ _) as [[[cur|]|e] tr]; cbn [snd] in *; try exact Hw.
  assert (Hp := pick_variables_logs (client self) cur (variable_names self) (nodes self)).
  destruct (pick_variables _ _ _ _) as [[[[|]|e] m] tr']; cbn [snd] in *;
    try (apply Forall_app; split; assumption).
  destruct (verbose self); [|apply Forall_app; split; assumption].
  assert (Hi := inspect_access_levels_logs (client self)
                  (nodes_items (variable_names self) m)).
  destruct (inspect_access_levels _ _) as [[[]|e] tr'']; cbn [snd] in *;
    rewrite !Forall_app; auto.
Qed.

(** An attempt connects once and otherwise only logs what resolution
    logs; when it succeeds its writer is the freshly resolved one. *)
Lemma attempt_shape (cfg : Config) (w : World) (k : Z) :
  ∃ logs, (attempt cfg w k).2 = EConnect :: logs ∧
          Forall (λ ev, is_resolve_log ev = true) logs ∧
          ∀ wr, (attempt cfg w k).1 = Ok wr →
                ∃ session root tr,
                  resolve_nodes (UmatiPrWriter_init session root (cfg_channel_path cfg)
                                   (cfg_var_names cfg) (cfg_verbose cfg))
                  = (Ok true, wr, tr).
Proof.
  unfold attempt. destruct (connect w k) as [session|e].
  - destruct (NodeId_from_string w _) as [root|e].
    + assert (Hq := resolve_nodes_logs
                      (UmatiPrWriter_init session root (cfg_channel_path cfg)
                         (cfg_var_names cfg) (cfg_verbose cfg))).
      destruct (resolve_nodes _) as [[[[|]|e] writer'] tr] eqn:Hres; cbn [fst snd] in *;
        eexists; (split; [reflexivity|]); (split; [constructor; auto|]);
        try discriminate.
      intros wr [= <-]. eauto.
    + eexists. split; [reflexivity|]. split; [repeat constructor|discriminate].
  - eexists. split; [reflexivity|]. split; [constructor|discriminate].
Qed.

Ltac resolve_logs :=
  let ev := fresh "ev" in
  intros ev; destruct ev as [| | | | |[] []]; cbn; congruence.

Ltac sampling_events :=
  let ev := fresh "ev" in
  intros ev; destruct ev as [| | | | |[] []]; cbn; congruence.

Lemma write_loop_events (s : Session) (resolved : gmap string Node)
    (values : gmap string float) (names : list string) : ∀ ok : bool,
  Forall (λ ev, is_sampling_event ev = true)
    (write_loop s resolved names values ok).2.
Proof.
  induction names as [|n rest IH]; intros ok; cbn [write_loop]; [constructor|].
  destruct (resolved !! n) as [node|].
  - destruct (write_value s node _) as [[]|e]; [|repeat constructor].
    specialize (IH ok). destruct (write_loop s resolved rest values ok) as [r tr].
    cbn [snd] in *. constructor; [reflexivity|exact IH].
  - specialize (IH false). destruct (write_loop s resolved rest values false) as [r tr].
    cbn [snd] in *. constructor; [reflexivity|exact IH].
Qed.

Lemma write_values_events (self : UmatiPrWriter) (values : gmap string float) :
  Forall (λ ev, is_sampling_event ev = true) (write_values self values).2.
Proof.
  unfold write_values.
  assert (H := write_loop_events (client self) (nodes self) values
                 (variable_names self) true).
  destruct (write_loop _ _ _ _ _) as [[ok|e] tr]; cbn [snd] in *; [exact H|].
  apply Forall_app. split; [exact H|repeat constructor].
Qed.

Lemma cycle_events_shape (cfg : Config) (writer : option UmatiPrWriter)
    (r : PzemReading) (tick : Z) :
  Forall (λ ev, is_sampling_event ev = true) (cycle_events cfg writer r tick).
Proof.
  unfold cycle_events. rewrite !Forall_app. repeat split.
  - destruct (decide _); repeat constructor.
  - destruct writer as [wr|]; [|constructor].
    assert (H := write_values_events wr (payload cfg r)).
    destruct (write_values wr (payload cfg r)) as [[|] tr]; cbn [snd] in H;
      rewrite Forall_app; split; auto; repeat constructor.
  - destruct (_ && _); repeat constructor.
  - repeat constructor.
Qed.

Lemma sampling_events_shape (cfg : Config) (w : World) (writer : option UmatiPrWriter)
    (n : nat) : ∀ (pzem : PzemNative) (tick : Z) (i : nat),
  Forall (λ ev, is_sampling_event ev = true) (sampling cfg w writer pzem tick i n).2.
Proof.
  induction n as [|n IH]; intros pzem tick i; cbn [sampling]; [constructor|].
  destruct (sensor_io w i) as [now io]. destruct (read pzem now io) as [[rd|e] pzem'].
  - specialize (IH pzem' (tick + 1)%Z (S i)).
    destruct (sampling cfg w writer pzem' (tick + 1) (S i) n) as [res tr].
    cbn [snd] in *. constructor; [reflexivity|].
    apply Forall_app. split; [apply cycle_events_shape|exact IH].
  - repeat constructor.
Qed.

(** The retry loop, whatever the attempts do. *)
Lemma connect_loop_counts (cfg : Config) (w : World) (attempts : list Z) :
  count is_connect (connect_loop cfg w attempts).2 ≤ length attempts ∧
  count is_connect (connect_loop cfg w attempts).2
  = count is_attempt_warning (connect_loop cfg w attempts).2
    + connected (connect_loop cfg w attempts).1 ∧
  count is_disconnect (connect_loop cfg w attempts).2
  = count is_attempt_warning (connect_loop cfg w attempts).2 ∧
  count is_sleep (connect_loop cfg w attempts).2
  ≤ count is_attempt_warning (connect_loop cfg w attempts).2 ∧
  count is_unresolved_log (connect_loop cfg w attempts).2 = 0.
Proof.
  induction attempts as [|k rest IH]; cbn [connect_loop length].
  - cbn. lia.
  - destruct (attempt_shape cfg w k) as (logs & Hev & Hlogs & _).
    destruct (attempt cfg w k) as [[wr|e] tr0]; cbn [fst snd] in *; subst tr0.
    + rewrite !count_cons.
      rewrite (count_none is_connect is_resolve_log logs), (count_none is_attempt_warning is_resolve_log logs),
        (count_none is_disconnect is_resolve_log logs), (count_none is_sleep is_resolve_log logs),
        (count_none is_unresolved_log is_resolve_log logs) by (try exact Hlogs; resolve_logs).
      cbn. lia.
    + destruct (decide (k < retries cfg)%Z).
      * destruct (connect_loop cfg w rest) as [o tr']. cbn [fst snd] in *.
        repeat rewrite ?count_app, ?count_cons, ?count_nil.
        rewrite (count_none is_connect is_resolve_log logs), (count_none is_attempt_warning is_resolve_log logs),
          (count_none is_disconnect is_resolve_log logs), (count_none is_sleep is_resolve_log logs),
          (count_none is_unresolved_log is_resolve_log logs) by (try exact Hlogs; resolve_logs).
        cbn. lia.
      * cbn [fst snd]. repeat rewrite ?count_app, ?count_cons, ?count_nil.
        rewrite (count_none is_connect is_resolve_log logs), (count_none is_attempt_warning is_resolve_log logs),
          (count_none is_disconnect is_resolve_log logs), (count_none is_sleep is_resolve_log logs),
          (count_none is_unresolved_log is_resolve_log logs) by (try exact Hlogs; resolve_logs).
        cbn. lia.
Qed.

(** X16: whatever the server does, [main] calls [connect] at most
    [retries] times (never when the configuration is missing); every
    failed attempt is logged as a warning, and at most one attempt, the
    last, succeeds. *)
Theorem main_connects_at_most_retries (w : World) :
  count is_connect (main w).2
  ≤ match config_file w with
    | Some cfg => Z.to_nat (retries cfg)
    | None => 0
    end ∧
  count is_attempt_warning (main w).2 ≤ count is_connect (main w).2 ∧
  count is_connect (main w).2 ≤ count is_attempt_warning (main w).2 + 1.
Proof.
  unfold main. destruct (config_file w) as [cfg|]; [|cbn; lia].
  destruct (connect_loop_counts cfg w (range 1 (retries cfg + 1)))
    as (Hlen & Hconn & _).
  assert (Hl : length (range 1 (retries cfg + 1)) = Z.to_nat (retries cfg))
    by (rewrite range_from_1; apply length_seqZ).
  rewrite Hl in Hlen. clear Hl.
  destruct (connect_loop cfg w (range 1 (retries cfg + 1))) as [[|writer] tr];
    cbn [fst snd] in *.
  - repeat rewrite ?count_app, ?count_cons, ?count_nil. cbn -[count] in *. lia.
  - assert (Hs := sampling_events_shape cfg w writer (cycles w)
                    (PzemNative_init (cfg_device cfg) (cfg_baudrate cfg)
                       (cfg_timeout cfg) (cfg_read_delay cfg) (cfg_simulate cfg)) 0 0).
    destruct (sampling _ _ _ _ _ _ _) as [res tr']. cbn [snd] in *.
    destruct (is_Ok (final_disconnect w));
      repeat rewrite ?count_app, ?count_cons, ?count_nil;
      rewrite (count_none is_connect is_sampling_event tr'),
        (count_none is_attempt_warning is_sampling_event tr')
        by (try exact Hs; sampling_events);
      destruct writer; cbn -[count] in *; lia.
Qed.

(** ** The retry loop when an attempt succeeds *)

Lemma connect_loop_success_at (cfg : Config) (w : World) (wr : UmatiPrWriter)
    (trk : list event) (n : nat) : ∀ a len : Z,
  (Z.of_nat n < len)%Z → (a + Z.of_nat n ≤ retries cfg)%Z →
  (∀ j, (a ≤ j < a + Z.of_nat n)%Z → attempt_fails cfg w j) →
  attempt cfg w (a + Z.of_nat n) = (Ok wr, trk) →
  connect_loop cfg w (seqZ a len) =
  (Proceed (Some wr),
   concat ((λ j, failed_attempt_events cfg w j ++ [ESleep (retry_delay cfg)])
           <$> seqZ a (Z.of_nat n)) ++ trk).
Proof.
  induction n as [|n IH]; intros a len Hlen Hk Hfail Hok;
    rewrite (seqZ_cons a len) by lia.
  - rewrite Z.add_0_r in Hok. cbn [connect_loop]. rewrite Hok. reflexivity.
  - rewrite connect_loop_failed_step by (apply Hfail; lia).
    rewrite decide_True by lia.
    rewrite (IH (Z.succ a) (Z.pred len)); try lia.
    + rewrite (seqZ_cons a (Z.of_nat (S n))) by lia.
      replace (Z.pred (Z.of_nat (S n))) with (Z.of_nat n) by lia.
      cbn [fst snd fmap list_fmap concat]. rewrite <- !app_assoc. reflexivity.
    + intros j Hj. apply Hfail. lia.
    + replace (Z.succ a + Z.of_nat n)%Z with (a + Z.of_nat (S n))%Z by lia. exact Hok.
Qed.

Lemma count_concat (p : event → bool) (c : nat) (blocks : list (list event)) :
  Forall (λ b, count p b = c) blocks →
  count p (concat blocks) = length blocks * c.
Proof.
  induction 1 as [|b blocks Hb _ IH]; [reflexivity|].
  cbn [concat length]. rewrite count_app, IH, Hb. lia.
Qed.

Lemma retry_blocks_count (p : event → bool) (c : nat) (cfg : Config) (w : World)
    (ks : list Z) :
  (∀ ev, is_quiet_log ev = true → p ev = false) →
  (∀ k e, count p [EConnect]
          + count p [ELog WARNING (ConnectResolveFailed k (retries cfg) e)]
          + count p [EDisconnect] + count p [ESleep (retry_delay cfg)] = c) →
  count p (concat ((λ j, failed_attempt_events cfg w j ++ [ESleep (retry_delay cfg)])
                   <$> ks)) = length ks * c.
Proof.
  intros Hq Hc. rewrite (count_concat p c), length_fmap; [reflexivity|].
  apply Forall_fmap, Forall_forall. intros k _. cbn -[count].
  rewrite count_app, failed_attempt_count by assumption. apply Hc.
Qed.

(** X17: when the attempts before attempt [k] fail and attempt [k]
    succeeds ([k] within the ceiling), the retry loop stops there with
    the writer resolved in that attempt: it has connected [k] times,
    disconnected and slept [k - 1] times, and no later attempt is made. *)
Theorem retry_stops_at_first_success (cfg : Config) (w : World) (k : Z)
    (wr : UmatiPrWriter) (trk : list event) :
  (1 ≤ k ≤ retries cfg)%Z →
  (∀ j, (1 ≤ j < k)%Z → attempt_fails cfg w j) →
  attempt cfg w k = (Ok wr, trk) →
  ∃ tr, connect_loop cfg w (range 1 (retries cfg + 1)) = (Proceed (Some wr), tr) ∧
        count is_connect tr = Z.to_nat k ∧
        count is_sleep tr = Z.to_nat k - 1 ∧
        count is_disconnect tr = Z.to_nat k - 1.
Proof.
  intros Hk Hfail Hok. eexists. split.
  - rewrite range_from_1.
    apply (connect_loop_success_at cfg w wr trk (Z.to_nat (k - 1)) 1 (retries cfg));
      try lia.
    + intros j Hj. apply Hfail. lia.
    + replace (1 + Z.of_nat (Z.to_nat (k - 1)))%Z with k by lia. exact Hok.
  - destruct (attempt_events cfg w k) as (logs & Hev & Hlogs).
    rewrite Hok in Hev. cbn [snd] in Hev. subst trk.
    rewrite !count_app, !count_cons.
    rewrite !(count_quiet _ logs) by (try exact Hlogs; quiet_events).
    rewrite (retry_blocks_count is_connect 1), (retry_blocks_count is_sleep 1),
      (retry_blocks_count is_disconnect 1), length_seqZ
      by (try quiet_events; reflexivity).
    cbn. lia.
Qed.

Lemma second_try_attempt_2 :
  attempt (main_channel_config 3) (second_try_world 3 2) 2 =
  (Ok (set_nodes main_channel_writer
         (<["AcCurrentPe" := "ns=1;i=2"]> (<["AcVoltagePe" := "ns=1;i=1"]> ∅))),
   [EConnect; ELog INFO Connected]).
Proof. reflexivity. Qed.

Lemma retry_stops_at_first_success_witness :
  ∃ tr, connect_loop (main_channel_config 3) (second_try_world 3 2) (range 1 (3 + 1))
        = (Proceed (Some (set_nodes main_channel_writer
                            (<["AcCurrentPe" := "ns=1;i=2"]>
                               (<["AcVoltagePe" := "ns=1;i=1"]> ∅)))), tr) ∧
        count is_connect tr = 2 ∧ count is_sleep tr = 1 ∧ count is_disconnect tr = 1.
Proof.
  apply (retry_stops_at_first_success (main_channel_config 3) (second_try_world 3 2) 2
           _ [EConnect; ELog INFO Connected]).
  - simpl. lia.
  - intros j Hj. assert (j = 1%Z) as -> by lia.
    exists (Exception "Connection refused"). reflexivity.
  - exact second_try_attempt_2.
Defined.

(** ** The writer that enters the sampling loop *)

Lemma attempt_writer_resolved (cfg : Config) (w : World) (k : Z) (wr : UmatiPrWriter) :
  (attempt cfg w k).1 = Ok wr →
  variable_names wr = cfg_var_names cfg ∧
  Forall (λ name, is_Some (nodes wr !! name)) (variable_names wr).
Proof.
  intros Hok. destruct (attempt_shape cfg w k) as (_ & _ & _ & Hres).
  destruct (Hres wr Hok) as (session & root & tr & Hresolve).
  apply resolve_nodes_true in Hresolve as (cur & m & tr' & _ & Hpick & -> & _).
  apply pick_variables_sound in Hpick as (_ & Hin & _).
  cbn [variable_names nodes set_nodes UmatiPrWriter_init] in *.
  split; [reflexivity|]. apply Forall_forall. intros name Hname.
  destruct (Hin name Hname) as (node & -> & _). eauto.
Qed.

Lemma connect_loop_writer_resolved (cfg : Config) (w : World) (attempts : list Z)
    (wr : UmatiPrWriter) :
  (connect_loop cfg w attempts).1 = Proceed (Some wr) →
  variable_names wr = cfg_var_names cfg ∧
  Forall (λ name, is_Some (nodes wr !! name)) (variable_names wr).
Proof.
  induction attempts as [|k rest IH]; cbn [connect_loop]; [discriminate|].
  assert (Hk := attempt_writer_resolved cfg w k).
  destruct (attempt cfg w k) as [[wr'|e] tr0]; cbn [fst] in *.
  - intros [= <-]. apply Hk. reflexivity.
  - destruct (decide _); [|discriminate].
    destruct (connect_loop cfg w rest) as [o tr']. exact IH.
Qed.

Lemma write_loop_all_resolved (s : Session) (resolved : gmap string Node)
    (values : gmap string float) (names : list string) : ∀ ok : bool,
  Forall (λ name, is_Some (resolved !! name)) names →
  count is_unresolved_log (write_loop s resolved names values ok).2 = 0.
Proof.
  induction names as [|n rest IH]; intros ok Hall; cbn [write_loop]; [reflexivity|].
  apply Forall_cons in Hall as [[node ->] Hall].
  destruct (write_value s node _) as [[]|e]; [|reflexivity].
  specialize (IH ok Hall). destruct (write_loop s resolved rest values ok) as [r tr].
  cbn [snd] in *. rewrite count_cons. exact IH.
Qed.

Lemma sampling_no_unresolved (cfg : Config) (w : World) (writer : option UmatiPrWriter)
    (n : nat) : ∀ (pzem : PzemNative) (tick : Z) (i : nat),
  (∀ wr, writer = Some wr →
         Forall (λ name, is_Some (nodes wr !! name)) (variable_names wr)) →
  count is_unresolved_log (sampling cfg w writer pzem tick i n).2 = 0.
Proof.
  induction n as [|n IH]; intros pzem tick i Hwr; cbn [sampling]; [reflexivity|].
  destruct (sensor_io w i) as [now io]. destruct (read pzem now io) as [[rd|e] pzem'];
    [|reflexivity].
  specialize (IH pzem' (tick + 1)%Z (S i) Hwr).
  destruct (sampling cfg w writer pzem' (tick + 1) (S i) n) as [res tr].
  cbn [snd] in *. rewrite count_cons, count_app, IH. unfold cycle_events.
  rewrite !count_app.
  assert (Hw : count is_unresolved_log
                 match writer with
                 | Some wr =>
                     let '(ok, tr) := write_values wr (payload cfg rd) in
                     tr ++ (if ok then [] else [ELog WARNING WriteNotOk])
                 | None => []
                 end = 0).
  { destruct writer as [wr|]; [|reflexivity]. unfold write_values.
    assert (H := write_loop_all_resolved (client wr) (nodes wr) (payload cfg rd)
                   (variable_names wr) true (Hwr wr eq_refl)).
    destruct (write_loop _ _ _ _ _) as [[[|]|e] tr']; cbn [snd] in H;
      rewrite ?count_app, H; reflexivity. }
  rewrite Hw. destruct (decide _), (_ && _); reflexivity.
Qed.

(** X18: in a run of [main], [write_values] never meets an unresolved
    name: the sampling loop is entered either without a writer or with
    one whose every variable name was resolved, so "Node not resolved"
    is never logged. *)
Theorem main_never_meets_unresolved_name (w : World) :
  count is_unresolved_log (main w).2 = 0.
Proof.
  unfold main. destruct (config_file w) as [cfg|]; [|reflexivity].
  destruct (connect_loop_counts cfg w (range 1 (retries cfg + 1)))
    as (_ & _ & _ & _ & Hu).
  assert (Hres := connect_loop_writer_resolved cfg w (range 1 (retries cfg + 1))).
  destruct (connect_loop cfg w (range 1 (retries cfg + 1))) as [[|writer] tr];
    cbn [fst snd] in *.
  - rewrite count_app, Hu. reflexivity.
  - assert (Hs := sampling_no_unresolved cfg w writer (cycles w)
                    (PzemNative_init (cfg_device cfg) (cfg_baudrate cfg)
                       (cfg_timeout cfg) (cfg_read_delay cfg) (cfg_simulate cfg)) 0 0).
    destruct (sampling _ _ _ _ _ _ _) as [res tr']. cbn [snd] in *.
    rewrite !count_app, Hu, Hs.
    + destruct (is_Ok (final_disconnect w)); reflexivity.
    + intros wr ->. apply Hres. reflexivity.
Qed.

(** ** Counting what the sampling loop does *)

Ltac write_side_events :=
  let ev := fresh "ev" in
  intros ev; destruct ev as [| | | | |[] []]; cbn; congruence.

Lemma write_loop_write_side (s : Session) (resolved : gmap string Node)
    (values : gmap string float) (names : list string) : ∀ ok : bool,
  Forall (λ ev, is_write_side ev = true) (write_loop s resolved names values ok).2.
Proof.
  induction names as [|n rest IH]; intros ok; cbn [write_loop]; [constructor|].
  destruct (resolved !! n) as [node|].
  - destruct (write_value s node _) as [[]|e]; [|repeat constructor].
    specialize (IH ok). destruct (write_loop s resolved rest values ok) as [r tr].
    cbn [snd] in *. constructor; [reflexivity|exact IH].
  - specialize (IH false). destruct (write_loop s resolved rest values false) as [r tr].
    cbn [snd] in *. constructor; [reflexivity|exact IH].
Qed.

(** The part of a cycle that belongs to the writer. *)
Lemma cycle_events_split (cfg : Config) (writer : option UmatiPrWriter)
    (r : PzemReading) (tick : Z) :
  ∃ wtr,
    cycle_events cfg writer r tick =
    (if decide (status r = "OK" ∨ status r = "SIM") then []
     else [ELog WARNING (PzemStatus (status r))])
    ++ wtr
    ++ (if cfg_log_values cfg && (tick `mod` Z.max 1 (cfg_values_every_n cfg) =? 0)%Z
        then [ELog DEBUG (Values (voltage r * v_scale cfg) (current r * i_scale cfg)
                                 (power r * p_scale cfg) (energy r * e_scale cfg))]
        else [])
    ++ [ESleep (sample cfg)] ∧
    Forall (λ ev, is_write_side ev = true) wtr ∧
    count is_write wtr ≤ names_per_cycle writer.
Proof.
  unfold cycle_events. destruct writer as [wr|]; cbn [names_per_cycle].
  - unfold write_values.
    assert (Hs := write_loop_write_side (client wr) (nodes wr) (payload cfg r)
                    (variable_names wr) true).
    assert (Hc := write_loop_counts wr (payload cfg r) (variable_names wr) true).
    destruct (write_loop _ _ _ _ _) as [[[|]|e] tr]; cbn [snd] in *.
    + exists (tr ++ []). split; [reflexivity|]. rewrite app_nil_r.
      split; [exact Hs|lia].
    + exists (tr ++ [ELog WARNING WriteNotOk]). split; [reflexivity|].
      rewrite Forall_app, count_app. split; [split; [exact Hs|repeat constructor]|].
      rewrite count_cons, count_nil. cbn [is_write]. lia.
    + exists ((tr ++ [ELog ERROR (UaWriteException e)]) ++ [ELog WARNING WriteNotOk]).
      split; [reflexivity|]. rewrite !Forall_app, !count_app.
      split; [repeat split; [exact Hs|repeat constructor..]|].
      rewrite !count_cons, count_nil. cbn [is_write]. lia.
  - exists []. repeat split; [constructor|cbn; lia].
Qed.

Lemma cycle_events_counts (cfg : Config) (writer : option UmatiPrWriter)
    (r : PzemReading) (tick : Z) :
  count is_read (cycle_events cfg writer r tick) = 0 ∧
  count is_sleep (cycle_events cfg writer r tick) = 1 ∧
  count is_write (cycle_events cfg writer r tick) ≤ names_per_cycle writer ∧
  count is_values_log (cycle_events cfg writer r tick)
  = if cfg_log_values cfg && (tick `mod` Z.max 1 (cfg_values_every_n cfg) =? 0)%Z
    then 1 else 0.
Proof.
  destruct (cycle_events_split cfg writer r tick) as (wtr & -> & Hside & Hwrites).
  rewrite !count_app.
  rewrite (count_none is_read is_write_side wtr),
    (count_none is_sleep is_write_side wtr),
    (count_none is_values_log is_write_side wtr)
    by (try exact Hside; write_side_events).
  destruct (decide _), (_ && _); cbn -[count]; rewrite ?count_cons, ?count_nil;
    cbn -[count]; lia.
Qed.

Lemma values_log_step (t n : Z) :
  (0 ≤ t)%Z → (1 ≤ n)%Z →
  ((t + 1) `div` n - t `div` n = if ((t + 1) `mod` n =? 0) then 1 else 0)%Z.
Proof.
  intros Ht Hn. pose proof (Z.div_mod (t + 1) n ltac:(lia)) as Hdm.
  pose proof (Z.mod_pos_bound (t + 1) n ltac:(lia)) as Hr.
  destruct (Z.eqb_spec ((t + 1) `mod` n) 0) as [H0|H0].
  - rewrite <- (Z.div_unique t n ((t + 1) `div` n - 1) (n - 1)); lia.
  - rewrite <- (Z.div_unique t n ((t + 1) `div` n) ((t + 1) `mod` n - 1)); lia.
Qed.

Lemma sampling_counts (cfg : Config) (w : World) (writer : option UmatiPrWriter)
    (n : nat) : ∀ (pzem : PzemNative) (tick : Z) (i : nat),
  simulate pzem = false ∨ (∀ i, clock_ok (sensor_io w i).1 = true) →
  (0 ≤ tick)%Z →
  ∃ tr, sampling cfg w writer pzem tick i n = (None, tr) ∧
        count is_read tr = n ∧ count is_sleep tr = n ∧
        count is_write tr ≤ n * names_per_cycle writer ∧
        count is_values_log tr
        = if cfg_log_values cfg
          then Z.to_nat ((tick + Z.of_nat n) `div` Z.max 1 (cfg_values_every_n cfg)
                         - tick `div` Z.max 1 (cfg_values_every_n cfg))
          else 0.
Proof.
  induction n as [|n IH]; intros pzem tick i Hmode Htick; cbn [sampling].
  - exists []. do 3 (split; [reflexivity|]). split; [rewrite count_nil; lia|].
    rewrite count_nil, Z.add_0_r, Z.sub_diag. destruct (cfg_log_values cfg); reflexivity.
  - destruct (sensor_io w i) as [now io] eqn:Hio.
    assert (Hread : ∃ r, (read pzem now io).1 = Ok r).
    { apply read_returns. destruct Hmode as [H|H]; [left; exact H|right].
      specialize (H i). rewrite Hio in H. exact H. }
    destruct Hread as [r Hr].
    assert (Hkeep := read_keeps_mode pzem now io).
    destruct (read pzem now io) as [res pzem']. cbn [fst snd] in *. subst res.
    destruct (IH pzem' (tick + 1)%Z (S i)) as (tr & -> & Hreads & Hsleeps & Hwrites & Hlogs);
      [destruct Hmode as [H|H]; [left; congruence|right; exact H]|lia|].
    eexists. split; [reflexivity|].
    destruct (cycle_events_counts cfg writer r (tick + 1)) as (Hr0 & Hs1 & Hw & Hv).
    rewrite !count_cons, !count_app, Hr0, Hs1, Hv, Hreads, Hsleeps, Hlogs.
    cbn [is_read is_sleep is_write is_values_log].
    repeat split; try lia.
    destruct (cfg_log_values cfg); cbn [andb]; [|reflexivity].
    pose proof (values_log_step tick (Z.max 1 (cfg_values_every_n cfg))
                  Htick ltac:(lia)) as Hstep.
    pose proof (Z.div_le_mono (tick + 1) (tick + 1 + Z.of_nat n)
                  (Z.max 1 (cfg_values_every_n cfg)) ltac:(lia) ltac:(lia)).
    replace (tick + Z.of_nat (S n))%Z with (tick + 1 + Z.of_nat n)%Z by lia.
    destruct (_ =? 0)%Z; lia.
Qed.

(** X21: while [pzem.read()] returns, [n] iterations of the sampling
    loop read the sensor [n] times and sleep [n] times, and issue at
    most one write per cycle and variable name (none without a writer);
    the loop itself never raises. *)
Theorem sampling_cycle_counts (cfg : Config) (w : World)
    (writer : option UmatiPrWriter) (pzem : PzemNative) (n : nat) :
  simulate pzem = false ∨ (∀ i, clock_ok (sensor_io w i).1 = true) →
  (sampling cfg w writer pzem 0 0 n).1 = None ∧
  count is_read (sampling cfg w writer pzem 0 0 n).2 = n ∧
  count is_sleep (sampling cfg w writer pzem 0 0 n).2 = n ∧
  count is_write (sampling cfg w writer pzem 0 0 n).2 ≤ n * names_per_cycle writer.
Proof.
  intros Hmode.
  destruct (sampling_counts cfg w writer n pzem 0 0 Hmode ltac:(lia))
    as (tr & -> & Hreads & Hsleeps & Hwrites & _).
  cbn [fst snd]. auto.
Qed.

Lemma sampling_cycle_counts_witness :
  (sampling (main_channel_config 3) (second_try_world 3 3) (Some four_writer)
     hardware_sensor 0 0 3).1 = None ∧
  count is_read (sampling (main_channel_config 3) (second_try_world 3 3)
                   (Some four_writer) hardware_sensor 0 0 3).2 = 3 ∧
  count is_sleep (sampling (main_channel_config 3) (second_try_world 3 3)
                    (Some four_writer) hardware_sensor 0 0 3).2 = 3 ∧
  count is_write (sampling (main_channel_config 3) (second_try_world 3 3)
                    (Some four_writer) hardware_sensor 0 0 3).2
  ≤ 3 * names_per_cycle (Some four_writer).
Proof.
  apply (sampling_cycle_counts (main_channel_config 3) (second_try_world 3 3)
           (Some four_writer) hardware_sensor 3).
  left. reflexivity.
Defined.

(** X22: with [log_values] set, the values are logged in every cycle
    whose number is a multiple of [max(1, log_values_every_n)], that is
    [n div max(1, log_values_every_n)] times in [n] cycles; a cadence of
    0 or less counts as 1 and never divides by zero.  Without
    [log_values] they are never logged. *)
Theorem values_logged_every_nth_cycle (cfg : Config) (w : World)
    (writer : option UmatiPrWriter) (pzem : PzemNative) (n : nat) :
  simulate pzem = false ∨ (∀ i, clock_ok (sensor_io w i).1 = true) →
  count is_values_log (sampling cfg w writer pzem 0 0 n).2
  = if cfg_log_values cfg
    then Z.to_nat (Z.of_nat n `div` Z.max 1 (cfg_values_every_n cfg))
    else 0.
Proof.
  intros Hmode.
  destruct (sampling_counts cfg w writer n pzem 0 0 Hmode ltac:(lia))
    as (tr & -> & _ & _ & _ & Hlogs).
  cbn [snd]. rewrite Hlogs. destruct (cfg_log_values cfg); [|reflexivity].
  rewrite Z.add_0_l, Z.div_0_l, Z.sub_0_r by lia. reflexivity.
Qed.

Lemma values_logged_every_nth_cycle_witness :
  count is_values_log (sampling (main_channel_config 3) (second_try_world 3 5)
                         (Some four_writer) hardware_sensor 0 0 5).2
  = if cfg_log_values (main_channel_config 3)
    then Z.to_nat (Z.of_nat 5 `div` Z.max 1 (cfg_values_every_n (main_channel_config 3)))
    else 0.
Proof.
  apply (values_logged_every_nth_cycle (main_channel_config 3) (second_try_world 3 5)
           (Some four_writer) hardware_sensor 5).
  left. reflexivity.
Defined.

(** ** The simulated signal *)

(** X23: in simulate mode a reading that [read] returns has status SIM,
    a voltage of 229.5 in even seconds and 228.5 in odd ones, a current
    of 0.150 + 0.010 or 0.150 - 0.010 by the parity of the third of the
    clock, a power that is their product, and an energy that is the
    previous [_last_energy] plus that power times 5/3600; the serial
    port plays no part. *)
Theorem read_simulate_reading (self : PzemNative) (now : float) (io : serial_io)
    (r : PzemReading) :
  simulate self = true → (read self now io).1 = Ok r →
  status r = "SIM" ∧
  (∀ t, int_of_float now = Ok t →
        voltage r = if decide (t `mod` 2 = 0)%Z then 229.5%float else 228.5%float) ∧
  (∀ t, int_of_float (now / float_of_int 3)%float = Ok t →
        current r = if decide (t `mod` 2 = 0)%Z then (0.150 + 0.010)%float
                    else (0.150 - 0.010)%float) ∧
  power r = (voltage r * current r)%float ∧
  energy r = (_last_energy self + power r * (5.0 / 3600.0))%float ∧
  ∀ io', read self now io' = read self now io.
Proof.
  intros Hsim. unfold read. rewrite Hsim. unfold sim_voltage, sim_current.
  destruct (int_of_float now) as [tv|e]; [|discriminate].
  destruct (int_of_float (now / float_of_int 3)) as [tc|e]; [|discriminate].
  cbn [mbind result_bind fst]. intros [= <-].
  cbn [status voltage current power energy set_last_energy _last_energy].
  repeat split.
  - intros t [= <-]. destruct (decide _); reflexivity.
  - intros t [= <-]. destruct (decide _); reflexivity.
Qed.

Lemma read_simulate_reading_witness :
  ∃ r, (read simulated_sensor 1700000001.5 (OpenRaises (Exception "no port"))).1 = Ok r ∧
       status r = "SIM" ∧ power r = (voltage r * current r)%float ∧
       energy r = (_last_energy simulated_sensor + power r * (5.0 / 3600.0))%float.
Proof.
  eexists. split; [reflexivity|].
  destruct (read_simulate_reading simulated_sensor 1700000001.5
              (OpenRaises (Exception "no port")) _ eq_refl eq_refl)
    as (Hs & _ & _ & Hp & He & _).
  auto.
Defined.
